(** * Constrained decoding server: text pipeline

    A shallow embedding of the pre- and post-processing code of
    [constrained_decoding/server/__init__.py]: the constraint index
    remapper, the span annotation converter, the BPE segmenter and the
    tokenizer adapter, followed by the properties established about them.

    Conventions of the embedding.
    - Python integers are [Z]; loop cursors that start at [0] and are only
      incremented are [nat] and are injected into [Z] where the code
      subtracts them or uses them as dictionary keys.
    - Python sequences indexed by position are lists; text is [string]
      (one [ascii] per character).
    - A [dict] is a [gmap]; building one from a list of items inserts the
      items from left to right, a later item replacing an earlier one.
    - A call either returns a value or raises: [result]. *)

From Stdlib Require Import ZArith Lia Ascii String.
From Equations Require Import Equations.
From stdpp Require Import gmap strings list fin_maps.

Local Open Scope Z_scope.

(** ** Exceptions and results *)

Inductive exn : Type :=
| IndexError
| AssertionError
| ValueError
| UnicodeDecodeError.

Inductive result (A : Type) : Type :=
| Ok (a : A)
| Raise (e : exn).
Arguments Ok {A} a.
Arguments Raise {A} e.

Global Instance result_ret : MRet result := λ A a, Ok a.
Global Instance result_bind : MBind result := λ A B k r,
  match r with
  | Ok a => k a
  | Raise e => Raise e
  end.

(** A value together with the equation that names it, for the proofs of
    termination of loops defined by well-founded recursion. *)
Definition inspect {A} (a : A) : {b | a = b} := exist _ a eq_refl.

(** [dict(items)]: later items win. *)
Definition py_dict `{Countable K} {V} (items : list (K * V)) : gmap K V :=
  foldl (λ m kv, <[kv.1 := kv.2]> m) ∅ items.

(** [seq[i]] for a cursor [i >= 0]. *)
Definition py_index {A} (seq : list A) (i : nat) : result A :=
  match seq !! i with
  | Some x => Ok x
  | None => Raise IndexError
  end.

(** ** Constraint index remapper *)

Module Remap.

Record state : Type := State {
  tokenized_idx : nat;
  current_offset : nat;
  true_start : option Z;
  remapped_indices : list (Z * Z)
}.

Definition initial : state := State 0 0 None [].

Section Core.
Context {A : Type} `{EqDecision A}.
Variables constraint_idx_starts constraint_idx_ends : gmap Z Z.
Variable tokenized_sequence : list A.

(** The test made at every cursor position (lines 35-41 and 53-59):
    a registered start opens a span, otherwise a registered end closes
    the pending one. *)
Definition check_position (st : state) : result state :=
  let here := Z.of_nat (tokenized_idx st) in
  let mapped := here - Z.of_nat (current_offset st) in
  if decide (is_Some (constraint_idx_starts !! here)) then
    Ok (State (tokenized_idx st) (current_offset st) (Some mapped)
              (remapped_indices st))
  else if decide (is_Some (constraint_idx_ends !! here)) then
    match true_start st with
    | None => Raise AssertionError
    | Some ts =>
        Ok (State (tokenized_idx st) (current_offset st) None
                  (remapped_indices st ++ [(ts, mapped)]))
    end
  else Ok st.

(** The inner [while] loop (lines 44-59); [i] and [off] are
    [tokenized_idx] and [current_offset]. The guard of line 47 bounds the
    cursor, which is what makes the loop terminate. *)
Equations? skip_unmatched (output_char : A) (i off : nat)
    (ts : option Z) (out : list (Z * Z)) : result state
    by wf (S (length tokenized_sequence) - i)%nat lt :=
  skip_unmatched output_char i off ts out
    with py_index tokenized_sequence i => {
    | Raise e => Raise e
    | Ok c with decide (output_char = c) => {
      | left _ => Ok (State i off ts out)
      | right _ with decide (length tokenized_sequence < S i)%nat => {
        | left _ => Raise IndexError
        | right _ with check_position (State (S i) (S off) ts out) => {
          | Raise e => Raise e
          | Ok st' =>
              skip_unmatched output_char (S i) (S off)
                (true_start st') (remapped_indices st') } } } }.
Proof. lia. Qed.

(** One iteration of the [for] loop (lines 35-61). *)
Definition for_body (output_char : A) (st : state) : result state :=
  st1 ← check_position st;
  st2 ← skip_unmatched output_char (tokenized_idx st1) (current_offset st1)
          (true_start st1) (remapped_indices st1);
  Ok (State (S (tokenized_idx st2)) (current_offset st2)
            (true_start st2) (remapped_indices st2)).

Fixpoint for_loop (detokenized_sequence : list A) (st : state)
    : result state :=
  match detokenized_sequence with
  | [] => Ok st
  | output_char :: rest => st' ← for_body output_char st; for_loop rest st'
  end.

(** Lines 63-67: a span still pending is closed at the final position. *)
Definition flush (st : state) : list (Z * Z) :=
  match true_start st with
  | Some ts =>
      remapped_indices st ++
        [(ts, Z.of_nat (tokenized_idx st) - Z.of_nat (current_offset st))]
  | None => remapped_indices st
  end.

Definition remap_with (detokenized_sequence : list A)
    : result (list (Z * Z)) :=
  st ← for_loop detokenized_sequence initial; Ok (flush st).
End Core.

(** Lines 27-28: the two dictionaries, keyed by start and by end. *)
Definition constraint_idx_starts (constraint_indices : list (Z * Z))
    : gmap Z Z :=
  py_dict ((λ se, (se.1, se.2)) <$> constraint_indices).

Definition constraint_idx_ends (constraint_indices : list (Z * Z))
    : gmap Z Z :=
  py_dict ((λ se, (se.2, se.1)) <$> constraint_indices).

Definition remap_constraint_indices {A} `{EqDecision A}
    (tokenized_sequence detokenized_sequence : list A)
    (constraint_indices : list (Z * Z)) : result (list (Z * Z)) :=
  remap_with (constraint_idx_starts constraint_indices)
    (constraint_idx_ends constraint_indices)
    tokenized_sequence detokenized_sequence.

(** Spans [s, e) listed in ascending order between [lo] and [hi], without
    overlap: [lo <= s1 <= e1 <= s2 <= e2 <= ... <= hi]. *)
Fixpoint ascending (lo : Z) (spans : list (Z * Z)) (hi : Z) : Prop :=
  match spans with
  | [] => lo ≤ hi
  | (s, e) :: rest => lo ≤ s ∧ s ≤ e ∧ ascending e rest hi
  end.

End Remap.

Definition chars (s : string) : list ascii := list_ascii_of_string s.

(** [len(s)] of a text. *)
Definition len (s : string) : Z := Z.of_nat (String.length s).

(** ** Span annotation converter *)

Module Spans.

Section Convert.
(** An identifier, the value of [annotation[0]], is [None] or a value of
    type [T]. *)
Context {T : Type} `{EqDecision T}.

(** [constraint_start_idx] is assigned whenever [constraint_id] is
    (lines 83-88), and the two are cleared together (lines 93-94).
    [open_constraint] is [None] while [constraint_start_idx] is [None];
    otherwise it holds the two, the identifier being [None] when it was
    assigned from an [annotation[0]] that is [None]. *)
Record state : Type := State {
  span_annotations : list (Z * Z);
  output_sequence : string;
  open_constraint : option (option T * Z)
}.

Definition constraint_id (st : state) : option T :=
  match open_constraint st with
  | Some (id, _) => id
  | None => None
  end.

(** Lines 80-94. *)
Definition track (annotation : option (list (option T))) (st : state)
    : result state :=
  match annotation with
  | Some ann =>
      id ← py_index ann 0;
      if decide (id ≠ constraint_id st) then
        let constraint_start_idx := len (output_sequence st) in
        let constraint_start_idx :=
          if decide (len (output_sequence st) > 0)
          then constraint_start_idx + 1 else constraint_start_idx in
        Ok (State (span_annotations st) (output_sequence st)
                  (Some (id, constraint_start_idx)))
      else Ok st
  | None =>
      match open_constraint st with
      | Some (Some _, constraint_start_idx) =>
          Ok (State
                (span_annotations st ++
                   [(constraint_start_idx, len (output_sequence st))])
                (output_sequence st) None)
      | _ => Ok st
      end
  end.

(** Lines 96-99. *)
Definition emit (token : string) (st : state) : state :=
  State (span_annotations st)
        (if decide (len (output_sequence st) = 0) then token
         else output_sequence st +:+ " " +:+ token)
        (open_constraint st).

Fixpoint loop (pairs : list (string * option (list (option T))))
    (st : state) : result state :=
  match pairs with
  | [] => Ok st
  | (token, annotation) :: rest =>
      st' ← track annotation st; loop rest (emit token st')
  end.

Definition convert_token_annotations_to_spans
    (token_sequence : list string)
    (constraint_annotations : list (option (list (option T))))
    : result (list (Z * Z) * string) :=
  if decide (length token_sequence = length constraint_annotations) then
    st ← loop (zip token_sequence constraint_annotations)
           (State [] EmptyString None);
    Ok (span_annotations st, output_sequence st)
  else Raise AssertionError.
End Convert.

End Spans.

(** ** Layouts: a tokenized sequence seen from its detokenized counterpart

    The remapper is given two sequences of which one is the other with
    some characters dropped. A layout names the correspondence the
    round-trip property of the specification speaks of: each character
    that is kept, with the run of dropped characters (separator and space)
    in front of it. Re-expanding a text-space span by the inverse offset
    puts its start on the tokenized position of its first character and
    its end right after the tokenized position of its last one. *)

Module Layout.

Section Layout.
Context {A : Type}.

Definition layout : Type := list (list A * A).

Definition tokenized (W : layout) : list A :=
  W ≫= (λ gd, gd.1 ++ [gd.2]).

Definition detokenized (W : layout) : list A := snd <$> W.

(** The tokenized position at which the first [j] characters end. *)
Definition boundary (W : layout) (j : nat) : nat :=
  length (tokenized (take j W)).

(** The number of characters dropped right before character [j]. *)
Definition gap (W : layout) (j : nat) : nat :=
  from_option (λ gd, length gd.1) 0%nat (W !! j).

Definition expand_start (W : layout) (a : nat) : nat :=
  (boundary W a + gap W a)%nat.

Definition expand_end (W : layout) (b : nat) : nat := boundary W b.

(** Re-expansion of a text-space span onto the tokenized sequence. *)
Definition expand (W : layout) (span : Z * Z) : Z * Z :=
  (Z.of_nat (expand_start W (Z.to_nat span.1)),
   Z.of_nat (expand_end W (Z.to_nat span.2))).

(** The dropped characters in front of a kept character do not contain
    that character (the cursor walk stops at the first match). *)
Definition clean (W : layout) : Prop :=
  Forall (λ gd, gd.2 ∉ gd.1) W.
End Layout.

(** Text-space spans [a, b) given in ascending order within [k, n],
    consecutive ones apart by at least one character. *)
Fixpoint separated (k : nat) (T : list (nat * nat)) (n : nat) : Prop :=
  match T with
  | [] => True
  | (a, b) :: T' =>
      (k ≤ a)%nat ∧ (a < b)%nat ∧ (b ≤ n)%nat ∧ separated (S b) T' n
  end.

Definition zspan (t : nat * nat) : Z * Z := (Z.of_nat t.1, Z.of_nat t.2).

(** The layout of "fo@@ o bar" over "foo bar". *)
Definition layout_fo_o_bar : list (list ascii * ascii) :=
  [([], "f"); ([], "o"); (chars "@@ ", "o"); ([], " ");
   ([], "b"); ([], "a"); ([], "r")]%char.

End Layout.

(** ** Text helpers of the Python runtime *)

Definition newline : string := String (ascii_of_nat 10) EmptyString.

(** [unicode.isspace] on the code points below 256. *)
Definition isspace (c : ascii) : bool :=
  let n := nat_of_ascii c in
  ((9 <=? n) && (n <=? 13) || (28 <=? n) && (n <=? 32) ||
   (n =? 133) || (n =? 160))%nat.

(** [str.isspace] on bytes. *)
Definition isspace_byte (c : ascii) : bool :=
  let n := nat_of_ascii c in
  ((9 <=? n) && (n <=? 13) || (n =? 32))%nat.

(** [s.split()]: the maximal runs of characters that are not whitespace;
    [cur] is the run being read. *)
Fixpoint split_from (cur : string) (s : string) : list string :=
  match s with
  | EmptyString => if decide (cur = EmptyString) then [] else [cur]
  | String c s' =>
      if isspace c then
        if decide (cur = EmptyString) then split_from EmptyString s'
        else cur :: split_from EmptyString s'
      else split_from (cur +:+ String c EmptyString) s'
  end.

Definition split (s : string) : list string := split_from EmptyString s.

(** [sep.join(items)]. *)
Fixpoint join (sep : string) (items : list string) : string :=
  match items with
  | [] => EmptyString
  | x :: rest =>
      match rest with
      | [] => x
      | _ :: _ => x +:+ sep +:+ join sep rest
      end
  end.

(** [s.endswith(suffix)]. *)
Definition endswith (s suffix : string) : bool :=
  (String.length suffix <=? String.length s)%nat &&
  String.eqb
    (substring (String.length s - String.length suffix)
       (String.length suffix) s)
    suffix.

(** [s.replace(old, '')] for a non-empty [old]: the occurrences of [old]
    are dropped from left to right; [skip] counts the characters of the
    occurrence being dropped. *)
Fixpoint remove_from (old : string) (skip : nat) (s : string) : string :=
  match s with
  | EmptyString => EmptyString
  | String c s' =>
      match skip with
      | S k => remove_from old k s'
      | O =>
          if String.prefix old s
          then remove_from old (String.length old - 1) s'
          else String c (remove_from old 0 s')
      end
  end.

Definition remove_all (old s : string) : string := remove_from old 0 s.

(** [seq.index(x, i)]: the first position at or after [i] that holds [x]. *)
Definition index_from {A} `{EqDecision A} (x : A) (i : nat) (seq : list A)
    : option nat :=
  (λ found, (i + found.1)%nat) <$> list_find (λ y, y = x) (drop i seq).

(** ** BPE segmenter *)

Module Bpe.

Definition end_of_word : string := "</w>".

(** A word under segmentation: a tuple of symbols. *)
Definition word_of (orig : string) : list string :=
  ((λ c, String c EmptyString) <$> chars orig) ++ [end_of_word].

(** The merge table: tuples of fields to priorities. *)
Definition table : Type := gmap (list string) nat.

(** [get_pairs] returns a set; the model lists the adjacent pairs in the
    order of the word. The set is only iterated by [min], whose result is
    used through its membership in the table and, when it is in the table,
    is the pair of least priority whatever the order. *)
Fixpoint pairs_after (prev_char : string) (rest : list string)
    : list (string * string) :=
  match rest with
  | [] => []
  | char :: rest' => (prev_char, char) :: pairs_after char rest'
  end.

Definition get_pairs (word : list string) : result (list (string * string)) :=
  match word with
  | [] => Raise IndexError
  | prev_char :: rest => Ok (pairs_after prev_char rest)
  end.

(** [bpe_codes.get(pair, float('inf'))]: [None] is infinity. *)
Definition priority (bpe_codes : table) (pair : string * string)
    : option nat :=
  bpe_codes !! [pair.1; pair.2].

Definition priority_lt (a b : option nat) : bool :=
  match a, b with
  | Some x, Some y => (x <? y)%nat
  | Some _, None => true
  | None, _ => false
  end.

(** [min(pairs, key=...)]: the first pair of least key. *)
Definition min_pair (bpe_codes : table) (pairs : list (string * string))
    : result (string * string) :=
  match pairs with
  | [] => Raise ValueError
  | p :: rest =>
      Ok (foldl (λ best q,
                   if priority_lt (priority bpe_codes q)
                                  (priority bpe_codes best)
                   then q else best) p rest)
  end.

(** The scan of lines 139-153; [i] is the cursor into [word]. *)
Equations? merge_scan (first second : string) (word : list string)
    (i : nat) (new_word : list string) : list string
    by wf (length word - i)%nat lt :=
  merge_scan first second word i new_word
    with decide (i < length word)%nat => {
    | right _ => new_word
    | left _ with inspect (index_from first i word) => {
      | exist _ None _ => new_word ++ drop i word
      | exist _ (Some j) Hj
          with decide (word !! j = Some first ∧ (j < length word - 1)%nat ∧
                       word !! S j = Some second) => {
        | left _ =>
            merge_scan first second word (j + 2)
              ((new_word ++ take (j - i) (drop i word)) ++ [first +:+ second])
        | right _ =>
            merge_scan first second word (j + 1)
              ((new_word ++ take (j - i) (drop i word)) ++ [word !!! j]) } } }.
Proof.
  all: unfold index_from in Hj;
    destruct (list_find _ _) as [[k y]|] eqn:Hfind; simplify_eq/=;
    apply list_find_Some in Hfind as (Hk & _ & _);
    apply lookup_lt_Some in Hk; rewrite length_drop in Hk; lia.
Qed.

Definition merge_pass (first second : string) (word : list string)
    : list string :=
  merge_scan first second word 0 [].

(** The merge pass in the words of the specification: scanning left to
    right, an occurrence of the pair consumes both symbols and yields the
    merged symbol, any other symbol is copied through. *)
Fixpoint merge_every_occurrence (first second : string) (word : list string)
    : list string :=
  match word with
  | [] => []
  | x :: rest =>
      match rest with
      | y :: rest' =>
          if decide (x = first ∧ y = second)
          then (first +:+ second) :: merge_every_occurrence first second rest'
          else x :: merge_every_occurrence first second rest
      | [] => [x]
      end
  end.

(** *** The merge pass is the specified one, and it shortens the word *)

Lemma merge_every_occurrence_cons first second x rest :
  x ≠ first →
  merge_every_occurrence first second (x :: rest) =
    x :: merge_every_occurrence first second rest.
Proof.
  intros Hx. simpl. destruct rest as [|y rest']; [done|].
  rewrite decide_False; [done | by intros [? _]].
Qed.

Lemma merge_every_occurrence_skip first second pre l :
  first ∉ pre →
  merge_every_occurrence first second (pre ++ l) =
    pre ++ merge_every_occurrence first second l.
Proof.
  induction pre as [|x pre IH]; intros Hpre; [done|].
  apply not_elem_of_cons in Hpre as [Hx Hpre].
  rewrite <- !app_comm_cons, merge_every_occurrence_cons by done.
  by rewrite IH.
Qed.

Lemma merge_every_occurrence_absent first second l :
  first ∉ l → merge_every_occurrence first second l = l.
Proof.
  intros Hl. rewrite <- (app_nil_r l) at 1.
  rewrite merge_every_occurrence_skip by done. apply app_nil_r.
Qed.

Lemma index_from_Some {A} `{EqDecision A} (x : A) i seq j :
  index_from x i seq = Some j →
  (i ≤ j)%nat ∧ seq !! j = Some x ∧ x ∉ take (j - i) (drop i seq).
Proof.
  unfold index_from. intros Hj.
  destruct (list_find _ _) as [[k y]|] eqn:Hfind; simplify_eq/=.
  apply list_find_Some in Hfind as (Hk & -> & Hbefore).
  rewrite lookup_drop in Hk. split; [lia|]. split; [done|].
  intros (n & Hn)%list_elem_of_lookup_1.
  apply lookup_take_Some in Hn as [Hn Hlt]. eapply (Hbefore n); [done|lia|done].
Qed.

Lemma index_from_None {A} `{EqDecision A} (x : A) i seq :
  index_from x i seq = None → x ∉ drop i seq.
Proof.
  unfold index_from. intros Hj.
  destruct (list_find _ _) as [[k y]|] eqn:Hfind; simplify_eq/=.
  apply list_find_None in Hfind. intros Hin.
  by eapply (Forall_forall (λ y, y ≠ x)) in Hin.
Qed.

Lemma merge_scan_spec first second word i new_word :
  merge_scan first second word i new_word =
    new_word ++ merge_every_occurrence first second (drop i word).
Proof.
  funelim (merge_scan first second word i new_word); clear Heqcall.
  - rewrite drop_ge by lia. simpl. by rewrite app_nil_r.
  - pose proof (index_from_None _ _ _ e) as Hnone.
    by rewrite merge_every_occurrence_absent.
  - rewrite H. clear H H0 Heq Heq0.
    destruct a as (Hj1 & Hj2 & Hj3).
    apply index_from_Some in Hj as (Hij & _ & Hpre).
    rewrite <- !app_assoc. f_equal.
    rewrite <- (take_drop (j - i) (drop i word)) at 2.
    rewrite merge_every_occurrence_skip by done. f_equal.
    rewrite drop_drop. replace (i + (j - i))%nat with j by lia.
    rewrite (drop_S _ _ _ Hj1), (drop_S _ _ _ Hj3). simpl.
    rewrite decide_True by done. by replace (j + 2)%nat with (S (S j)) by lia.
  - rewrite H. clear H H0 Heq Heq0.
    apply index_from_Some in Hj as (Hij & Hj1 & Hpre).
    rewrite (list_lookup_total_correct _ _ _ Hj1).
    rewrite <- !app_assoc. f_equal.
    rewrite <- (take_drop (j - i) (drop i word)) at 2.
    rewrite merge_every_occurrence_skip by done. f_equal.
    rewrite drop_drop. replace (i + (j - i))%nat with j by lia.
    rewrite (drop_S _ _ _ Hj1). replace (j + 1)%nat with (S j) by lia.
    simpl. destruct (drop (S j) word) as [|y rest'] eqn:Hd; [done|].
    rewrite decide_False; [done|]. intros [_ ->]. apply n.
    assert (word !! S j = Some second) as Hs.
    { by rewrite <- (Nat.add_0_r (S j)), <- lookup_drop, Hd. }
    split; [done|]. split; [|done]. apply lookup_lt_Some in Hs. lia.
Qed.

Lemma merge_pass_spec first second word :
  merge_pass first second word = merge_every_occurrence first second word.
Proof. unfold merge_pass. by rewrite merge_scan_spec. Qed.

Lemma merge_every_occurrence_length first second n : ∀ word,
  (length word ≤ n)%nat →
  (length (merge_every_occurrence first second word) ≤ length word)%nat.
Proof.
  induction n as [|n IH]; intros [|x [|y rest']] Hn; simpl in *; try lia.
  case_decide; simpl.
  - specialize (IH rest'). lia.
  - specialize (IH (y :: rest')). simpl in IH. lia.
Qed.

Lemma merge_every_occurrence_shorter first second rest : ∀ x,
  (first, second) ∈ pairs_after x rest →
  (length (merge_every_occurrence first second (x :: rest))
   < length (x :: rest))%nat.
Proof.
  induction rest as [|y rest' IH]; intros x Hin; simpl in Hin.
  - by apply elem_of_nil in Hin.
  - cbn [merge_every_occurrence]. case_decide as Hxy; simpl.
    + pose proof (merge_every_occurrence_length first second _ rest'
        (Nat.le_refl _)). lia.
    + apply elem_of_cons in Hin as [Heq|Hin]; [by simplify_eq; destruct Hxy|].
      specialize (IH y Hin). simpl in IH. lia.
Qed.

Lemma min_pair_elem bpe_codes pairs bigram :
  min_pair bpe_codes pairs = Ok bigram → bigram ∈ pairs.
Proof.
  destruct pairs as [|p rest]; [done|]. simpl. intros [= <-].
  revert p. induction rest as [|q rest IH]; intros p; simpl.
  - apply list_elem_of_here.
  - case_match.
    + apply list_elem_of_further, IH.
    + specialize (IH p). apply elem_of_cons in IH as [->|IH].
      * apply list_elem_of_here.
      * by do 2 apply list_elem_of_further.
Qed.

(** *** [encode] and the segmenter *)

(** The [while True] loop of lines 132-159. [pairs] is [get_pairs word]
    whenever the loop head is reached (lines 130 and 159), so the model
    computes it there. *)
Equations? encode_loop (bpe_codes : table) (word : list string)
    : result (list string) by wf (length word) lt :=
  encode_loop bpe_codes word with inspect (get_pairs word) => {
    | exist _ (Raise e) _ => Raise e
    | exist _ (Ok pairs) Hpairs
        with inspect (min_pair bpe_codes pairs) => {
      | exist _ (Raise e) _ => Raise e
      | exist _ (Ok bigram) Hmin
          with bpe_codes !! [bigram.1; bigram.2] => {
        | None => Ok word
        | Some _
            with decide (length (merge_pass bigram.1 bigram.2 word) = 1%nat)
            => {
          | left _ => Ok (merge_pass bigram.1 bigram.2 word)
          | right _ =>
              encode_loop bpe_codes (merge_pass bigram.1 bigram.2 word) } } } }.
Proof.
  rewrite merge_pass_spec. destruct word as [|x rest]; [done|].
  simpl in Hpairs. simplify_eq. apply min_pair_elem in Hmin.
  destruct bigram. by apply merge_every_occurrence_shorter.
Qed.

(** Lines 161-165: the end-of-word marker is not printed. *)
Definition strip_end_of_word (word : list string) : result (list string) :=
  match last word with
  | None => Raise IndexError
  | Some final =>
      if decide (final = end_of_word) then Ok (removelast word)
      else if endswith final end_of_word
      then Ok (removelast word ++ [remove_all end_of_word final])
      else Ok word
  end.

(** Lines 129-165: the segmentation of a word that is not in the cache. *)
Definition encode_word (orig : string) (bpe_codes : table)
    : result (list string) :=
  word ← encode_loop bpe_codes (word_of orig); strip_end_of_word word.

(** Which [return] of [encode] was taken. *)
Inductive return_site : Type :=
| FromCache    (* line 127 *)
| Computed.    (* line 168 *)

Record encoded : Type := Encoded {
  enc_word : list string;            (* the value returned *)
  enc_cache : gmap string (list string);   (* the cache as the call leaves it *)
  enc_site : return_site
}.

(** [encode(orig, bpe_codes, cache=None)]; a call without a cache works on
    a new empty dictionary (lines 123-124). *)
Definition encode (orig : string) (bpe_codes : table)
    (cache : option (gmap string (list string))) : result encoded :=
  let cache := default ∅ cache in
  match cache !! orig with
  | Some word => Ok (Encoded word cache FromCache)
  | None =>
      word ← encode_word orig bpe_codes;
      Ok (Encoded word (<[orig := word]> cache) Computed)
  end.

Record BPE : Type := MkBPE {
  bpe_codes : table;
  ignore : option (list string);
  separator : string
}.

(** [BPE.__init__] (lines 173-179). *)
Definition parse_codes (codes : list string) : list (list string) :=
  split <$> codes.

Definition init (codes : list string) (separator : string)
    (ignore : option (list string)) : result BPE :=
  let bpe_codes := parse_codes codes in
  let bpe_codes :=
    py_dict (reverse (imap (λ i code, (code, i)) bpe_codes)) in
  Ok (MkBPE bpe_codes ignore separator).

(** One word of [BPE.segment] (lines 186-193): the pieces appended to
    [output], and where the word's segmentation came from when [encode]
    was called. *)
Definition ignored (self : BPE) (word : string) : bool :=
  match ignore self with
  | Some ign => bool_decide (word ∈ ign)
  | None => false
  end.

Definition segment_word (self : BPE) (word : string)
    : result (list string * option return_site) :=
  if ignored self word then Ok ([word], None)
  else
    enc ← encode word (bpe_codes self) None;
    let new_word := enc_word enc in
    match last new_word with
    | None => Raise IndexError
    | Some final =>
        Ok (((λ item, item +:+ separator self) <$> removelast new_word)
              ++ [final],
            Some (enc_site enc))
    end.

Fixpoint segment_words (self : BPE) (words : list string)
    : result (list string * list return_site) :=
  match words with
  | [] => Ok ([], [])
  | word :: rest =>
      w ← segment_word self word;
      r ← segment_words self rest;
      Ok (w.1 ++ r.1, from_option (λ site, [site]) [] w.2 ++ r.2)
  end.

(** The table of the single rule "a b", for the examples. *)
Definition table_a_b : table := {[ ["a"; "b"]%string := 0%nat ]}.

(** [BPE.segment] (lines 181-195). *)
Definition segment (self : BPE) (sentence : string) : result string :=
  r ← segment_words self (split sentence); Ok (join " " r.1).

(** The text a tuple of symbols spells: [''.join(word)]. *)
Definition spell (word : list string) : string :=
  foldr String.append EmptyString word.

(** The return sites of the [encode] calls made by [segment], in order. *)
Definition segment_sites (self : BPE) (sentence : string)
    : result (list return_site) :=
  r ← segment_words self (split sentence); Ok r.2.

End Bpe.

(** ** Tokenizer adapter *)

Module Tokenizer.

(** The argument of [tokenize]: a byte string or a unicode text. *)
Inductive text : Type :=
| Str (s : string)
| Unicode (s : string).

(** The external tokenizer as the adapter sees it: what has been written to
    its standard input, and the lines its standard output still delivers
    before it closes. *)
Record process : Type := Process {
  stdin : list string;
  stdout : list string
}.

(** [DataProcessor]: [bpe] is set exactly when [use_subword] is
    (lines 205-208). *)
Record DataProcessor : Type := MkDataProcessor {
  bpe : option Bpe.BPE;
  lang : string;
  tokenizer : process
}.

Definition use_subword (self : DataProcessor) : bool :=
  bool_decide (is_Some (bpe self)).

(** [stdout.readline()]: the empty string once the stream has closed. *)
Definition readline (p : process) : string * process :=
  match stdout p with
  | [] => (EmptyString, p)
  | line :: rest => (line, Process (stdin p) rest)
  end.

Definition write (data : string) (p : process) : process :=
  Process (stdin p ++ [data]) (stdout p).

(** Lines 228-230: read until a line other than the bare newline. *)
Fixpoint read_segment (lines : list string) : string * list string :=
  match lines with
  | [] => (EmptyString, [])
  | line :: rest =>
      if decide (line = newline) then read_segment rest else (line, rest)
  end.

Fixpoint lstrip_with (space : ascii → bool) (s : string) : string :=
  match s with
  | EmptyString => EmptyString
  | String c s' => if space c then lstrip_with space s' else s
  end.

Definition rstrip_with (space : ascii → bool) (s : string) : string :=
  String.rev (lstrip_with space (String.rev s)).

Definition strip_with (space : ascii → bool) (s : string) : string :=
  rstrip_with space (lstrip_with space s).

(** [text.strip()], by the type of [text]. *)
Definition strip (t : text) : string :=
  match t with
  | Str s => strip_with isspace_byte s
  | Unicode s => strip_with isspace s
  end.

Section Tokenize.
(** The UTF-8 codec of the runtime. *)
Variable encode_utf8 : string → string.
Variable decode_utf8 : string → result string.

(** [DataProcessor.tokenize] (lines 217-240): the tokens, and the process
    as the call leaves it. *)
Definition tokenize (self : DataProcessor) (t : text)
    : result (list string) * process :=
  if decide (String.length (strip t) = 0%nat) then (Ok [], tokenizer self)
  else
    let bytes := match t with Unicode s => encode_utf8 s | Str s => s end in
    let p := write (bytes +:+ newline +:+ newline) (tokenizer self) in
    let '(segment, rest) := read_segment (stdout p) in
    let p := (readline (Process (stdin p) rest)).2 in
    (utf_line ← decode_utf8 (rstrip_with isspace_byte segment);
     match bpe self with
     | Some b => segmented ← Bpe.segment b utf_line; Ok (split segmented)
     | None => Ok (split utf_line)
     end,
     p).
End Tokenize.

(** A codec for the texts of the examples: seven-bit characters are their
    own encoding. *)
Definition ascii_only (s : string) : bool :=
  forallb (λ c, (nat_of_ascii c <? 128)%nat) (chars s).

Definition decode_ascii (s : string) : result string :=
  if ascii_only s then Ok s else Raise UnicodeDecodeError.

End Tokenizer.

(** * Properties *)

(** ** Dictionaries built from item lists *)

Lemma py_dict_app `{Countable K} {V} (l1 l2 : list (K * V)) :
  py_dict (l1 ++ l2) = foldl (λ m kv, <[kv.1 := kv.2]> m) (py_dict l1) l2.
Proof. unfold py_dict. apply foldl_app. Qed.

Lemma py_dict_snoc `{Countable K} {V} (l : list (K * V)) k v :
  py_dict (l ++ [(k, v)]) = <[k := v]> (py_dict l).
Proof. by rewrite py_dict_app. Qed.

Lemma py_dict_is_Some `{Countable K} {V} (l : list (K * V)) k :
  is_Some (py_dict l !! k) ↔ k ∈ l.*1.
Proof.
  induction l as [|[k' v'] l IH] using rev_ind.
  - unfold py_dict; simpl. rewrite lookup_empty, is_Some_alt.
    split; [done | by intros ?%elem_of_nil].
  - rewrite py_dict_snoc, fmap_app, elem_of_app; simpl.
    rewrite list_elem_of_singleton.
    destruct (decide (k' = k)) as [->|Hne].
    + rewrite lookup_insert_eq. split; eauto.
    + rewrite lookup_insert_ne by done. rewrite IH.
      split; [auto | intros [?|?]; [done | congruence]].
Qed.

Module RemapFacts.
Import Remap.

(** Two runs that move the cursor alike: [r] is the run with spans
    registered, [r0] the run of the bare cursor. *)
Definition follows (r r0 : result state) : Prop :=
  match r with
  | Ok st =>
      ∃ st0, r0 = Ok st0 ∧ tokenized_idx st = tokenized_idx st0 ∧
             current_offset st = current_offset st0
  | Raise IndexError => r0 = Raise IndexError
  | Raise AssertionError => True
  | Raise _ => False
  end.

Section Core.
Context {A : Type} `{EqDecision A}.
Variables starts ends : gmap Z Z.
Variable tok : list A.

Lemma skip_unmatched_unfold c i off ts out :
  skip_unmatched starts ends tok c i off ts out =
  match tok !! i with
  | None => Raise IndexError
  | Some x =>
      if decide (c = x) then Ok (State i off ts out)
      else if decide (length tok < S i)%nat then Raise IndexError
      else st' ← check_position starts ends (State (S i) (S off) ts out);
           skip_unmatched starts ends tok c (S i) (S off)
             (true_start st') (remapped_indices st')
  end.
Proof.
  simp skip_unmatched. unfold py_index.
  destruct (tok !! i) as [x|]; simpl; [|done].
  destruct (decide (c = x)); simpl; [done|].
  destruct (decide (length tok < S i)%nat); simpl; [done|].
  by destruct (check_position _ _ _).
Qed.

Lemma check_position_cursor st st' :
  check_position starts ends st = Ok st' →
  tokenized_idx st' = tokenized_idx st ∧
  current_offset st' = current_offset st.
Proof.
  unfold check_position. intros Hc.
  repeat case_decide; try destruct (true_start st); by simplify_eq.
Qed.

Lemma check_position_exn st e :
  check_position starts ends st = Raise e → e = AssertionError.
Proof.
  unfold check_position. intros Hc.
  repeat case_decide; try destruct (true_start st); by simplify_eq.
Qed.

Lemma check_position_start st :
  is_Some (starts !! Z.of_nat (tokenized_idx st)) →
  check_position starts ends st =
    Ok (State (tokenized_idx st) (current_offset st)
          (Some (Z.of_nat (tokenized_idx st) - Z.of_nat (current_offset st)))
          (remapped_indices st)).
Proof. intros Hs. unfold check_position. by rewrite decide_True. Qed.

Lemma check_position_none st :
  starts !! Z.of_nat (tokenized_idx st) = None →
  ends !! Z.of_nat (tokenized_idx st) = None →
  check_position starts ends st = Ok st.
Proof.
  intros Hs He. unfold check_position.
  rewrite !decide_False; [done | | ]; rewrite ?He, ?Hs; by intros [? ?].
Qed.
End Core.

Lemma check_position_empty st : check_position ∅ ∅ st = Ok st.
Proof. by apply check_position_none. Qed.

Section Follows.
Context {A : Type} `{EqDecision A}.
Variables starts ends : gmap Z Z.
Variable tok : list A.

Lemma skip_unmatched_follows c n : ∀ i off ts out ts0 out0,
  (S (length tok) - i ≤ n)%nat →
  follows (skip_unmatched starts ends tok c i off ts out)
          (skip_unmatched ∅ ∅ tok c i off ts0 out0).
Proof.
  induction n as [|n IH]; intros i off ts out ts0 out0 Hn;
    rewrite (skip_unmatched_unfold starts), (skip_unmatched_unfold ∅).
  - rewrite lookup_ge_None_2 by lia. done.
  - destruct (tok !! i) as [x|] eqn:Hx; [|done].
    destruct (decide (c = x)); [simpl; eauto|].
    destruct (decide (length tok < S i)%nat); [done|].
    rewrite check_position_empty; simpl.
    destruct (check_position starts ends _) as [st'|e] eqn:Hc; simpl.
    + apply check_position_cursor in Hc as [? ?]. apply IH. lia.
    + by apply check_position_exn in Hc as ->.
Qed.

Lemma for_body_follows c st st0 :
  tokenized_idx st = tokenized_idx st0 →
  current_offset st = current_offset st0 →
  follows (for_body starts ends tok c st) (for_body ∅ ∅ tok c st0).
Proof.
  intros Hi Ho. unfold for_body. rewrite check_position_empty; simpl.
  destruct (check_position starts ends st) as [st1|e] eqn:Hc; simpl.
  - apply check_position_cursor in Hc as [-> ->]. rewrite Hi, Ho.
    pose proof (skip_unmatched_follows c (S (length tok))
      (tokenized_idx st0) (current_offset st0)
      (true_start st1) (remapped_indices st1)
      (true_start st0) (remapped_indices st0) ltac:(lia)) as Hf.
    destruct (skip_unmatched starts ends _ _ _ _ _ _) as [st2|[]];
      simpl in *; try done; try (by rewrite Hf).
    destruct Hf as (st2' & -> & Hi2 & Ho2). simpl.
    eexists; split; [done|]. simpl. by rewrite Hi2, Ho2.
  - by apply check_position_exn in Hc as ->.
Qed.

Lemma for_loop_follows detok : ∀ st st0,
  tokenized_idx st = tokenized_idx st0 →
  current_offset st = current_offset st0 →
  follows (for_loop starts ends tok detok st) (for_loop ∅ ∅ tok detok st0).
Proof.
  induction detok as [|c detok IH]; intros st st0 Hi Ho; simpl.
  - eauto.
  - pose proof (for_body_follows c st st0 Hi Ho) as Hf.
    destruct (for_body starts ends tok c st) as [st'|[]]; simpl in *;
      try (by rewrite ?Hf).
    destruct Hf as (st0' & -> & ? & ?). simpl. by apply IH.
Qed.
End Follows.

(** Runs whose position tests agree are the same run. *)
Section Congruence.
Context {A : Type} `{EqDecision A}.
Variables starts ends starts' ends' : gmap Z Z.
Variable tok : list A.
Hypothesis check_eq : ∀ st,
  check_position starts ends st = check_position starts' ends' st.

Lemma skip_unmatched_ext c n : ∀ i off ts out,
  (S (length tok) - i ≤ n)%nat →
  skip_unmatched starts ends tok c i off ts out =
  skip_unmatched starts' ends' tok c i off ts out.
Proof.
  induction n as [|n IH]; intros i off ts out Hn;
    rewrite (skip_unmatched_unfold starts), (skip_unmatched_unfold starts').
  - by rewrite lookup_ge_None_2 by lia.
  - destruct (tok !! i) as [x|]; [|done].
    repeat case_decide; try done.
    rewrite check_eq.
    destruct (check_position starts' ends' _) as [st'|e] eqn:Hc; [|done].
    simpl. apply IH. lia.
Qed.

Lemma for_loop_ext detok : ∀ st,
  for_loop starts ends tok detok st = for_loop starts' ends' tok detok st.
Proof.
  induction detok as [|c detok IH]; intros st; simpl; [done|].
  unfold for_body. rewrite check_eq.
  destruct (check_position starts' ends' st) as [st1|]; simpl; [|done].
  rewrite (skip_unmatched_ext c (S (length tok))) by lia.
  destruct (skip_unmatched starts' ends' _ _ _ _ _ _); simpl; [|done].
  apply IH.
Qed.

Lemma remap_with_ext detok :
  remap_with starts ends tok detok = remap_with starts' ends' tok detok.
Proof. unfold remap_with. by rewrite for_loop_ext. Qed.
End Congruence.

Lemma check_position_delete_end (starts ends : gmap Z Z) p st :
  is_Some (starts !! p) →
  check_position starts ends st = check_position starts (delete p ends) st.
Proof.
  intros Hp. unfold check_position. cbv zeta.
  destruct (decide (is_Some (starts !! Z.of_nat (tokenized_idx st))))
    as [|Hn]; [done|].
  rewrite lookup_delete_ne; [done|]. by intros ->.
Qed.

Lemma elem_of_constraint_idx_starts spans s e :
  (s, e) ∈ spans → is_Some (constraint_idx_starts spans !! s).
Proof.
  intros Hin. unfold constraint_idx_starts. apply py_dict_is_Some.
  rewrite <- list_fmap_compose.
  apply (list_elem_of_fmap_2 (fst ∘ (λ se : Z * Z, (se.1, se.2))) _ _ Hin).
Qed.

End RemapFacts.

(** * The remapper on the documented example and at its edges *)

Import Remap.

(** C1, as the code behaves: for [tokenized = "fo@@ o bar"],
    [detokenized = "foo bar"] and the span [[0,5]] the remapper returns
    [[0,2]]: offset 5 is where the second "o" begins, and that character
    sits at offset 2 of the detokenized text. The span that covers
    "fo@@ o" is [[0,6]], and it is the one remapped to [[0,3]]. *)
Theorem remap_example_fo_o_bar :
  remap_constraint_indices (chars "fo@@ o bar") (chars "foo bar") [(0, 5)]
    = Ok [(0, 2)] ∧
  remap_constraint_indices (chars "fo@@ o bar") (chars "foo bar") [(0, 6)]
    = Ok [(0, 3)].
Proof. split; reflexivity. Qed.

(** C1 as stated does not hold: the call does not return [[0,3]]. *)
Lemma remap_example_not_0_3 :
  remap_constraint_indices (chars "fo@@ o bar") (chars "foo bar") [(0, 5)]
    ≠ Ok [(0, 3)].
Proof. by vm_compute. Qed.




Lemma elem_of_constraint_idx_ends spans s e :
  (s, e) ∈ spans → is_Some (constraint_idx_ends spans !! e).
Proof.
  intros Hin. unfold constraint_idx_ends. apply py_dict_is_Some.
  rewrite <- list_fmap_compose.
  apply (list_elem_of_fmap_2 (fst ∘ (λ se : Z * Z, (se.2, se.1))) _ _ Hin).
Qed.

(** C10, as the code behaves: a cursor position registered both as the
    end of one span and as the start of another passes both membership
    tests, and wherever the walk tests it the start branch alone runs:
    whatever the pending start was, it is replaced by the new one and
    nothing is appended there (no assertion is evaluated either); over a
    whole call the end registered at that position is inert. Nothing is
    said of a position the walk never tests: the pending start of the
    earlier span is then closed after the loop (lines 63-65). *)
Theorem remap_shared_boundary_is_start {A} `{EqDecision A}
    (tokenized detokenized : list A) (spans : list (Z * Z))
    (s1 e1 s2 e2 : Z) :
  (s1, e1) ∈ spans → (s2, e2) ∈ spans → e1 = s2 →
  (is_Some (constraint_idx_starts spans !! e1) ∧
   is_Some (constraint_idx_ends spans !! e1)) ∧
  (∀ i off ts out, Z.of_nat i = e1 →
     check_position (constraint_idx_starts spans) (constraint_idx_ends spans)
       (State i off ts out)
     = Ok (State i off (Some (Z.of_nat i - Z.of_nat off)) out)) ∧
  remap_constraint_indices tokenized detokenized spans =
    remap_with (constraint_idx_starts spans)
      (delete e1 (constraint_idx_ends spans)) tokenized detokenized.
Proof.
  intros H1 H2 ->.
  pose proof (RemapFacts.elem_of_constraint_idx_starts _ _ _ H2) as Hs.
  pose proof (elem_of_constraint_idx_ends _ _ _ H1) as He.
  split; [done|]. split.
  - intros i off ts out Hi.
    rewrite RemapFacts.check_position_start; [done | by simpl; rewrite Hi].
  - apply RemapFacts.remap_with_ext. intros st.
    by apply RemapFacts.check_position_delete_end.
Qed.

Lemma remap_shared_boundary_is_start_witness :
  (is_Some (constraint_idx_starts [(0, 2); (2, 5)] !! 2) ∧
   is_Some (constraint_idx_ends [(0, 2); (2, 5)] !! 2)) ∧
  (∀ i off ts out, Z.of_nat i = 2 →
     check_position (constraint_idx_starts [(0, 2); (2, 5)])
       (constraint_idx_ends [(0, 2); (2, 5)]) (State i off ts out)
     = Ok (State i off (Some (Z.of_nat i - Z.of_nat off)) out)) ∧
  remap_constraint_indices (chars "ab cd") (chars "ab cd") [(0, 2); (2, 5)] =
    remap_with (constraint_idx_starts [(0, 2); (2, 5)])
      (delete 2 (constraint_idx_ends [(0, 2); (2, 5)]))
      (chars "ab cd") (chars "ab cd").
Proof.
  apply (remap_shared_boundary_is_start _ _ _ 0 2 2 5);
    [by apply list_elem_of_here
    | by apply list_elem_of_further, list_elem_of_here
    | reflexivity].
Defined.

(** C10 as stated does not hold: on "ab@@" against "ab" the walk ends at
    cursor 2, the offset the two spans share, without testing it, and the
    flush after the loop appends the earlier span. *)
Lemma remap_shared_boundary_flushed :
  remap_constraint_indices (chars "ab@@") (chars "ab") [(0, 2); (2, 4)]
    = Ok [(0, 2)] ∧
  remap_constraint_indices (chars "abc") (chars "abc") [(0, 3); (3, 5)]
    = Ok [(0, 3)].
Proof. split; reflexivity. Qed.

Example remap_touching_spans :
  remap_constraint_indices (chars "ab cd") (chars "ab cd") [(0, 2); (2, 5)]
    = Ok [(2, 5)].
Proof. reflexivity. Qed.




(** * The span annotation converter on the documented example *)

(** C2, the code at the documented call: the run tagged "c1" reaches the
    end of the token sequence and no span is returned for it; the text is
    built as documented. A span is appended only when an untagged token
    follows the run, as the second call shows. *)
Theorem convert_example_open_run :
  Spans.convert_token_annotations_to_spans
    ["foo"; "bar"; "baz"]%string
    [None; Some (Some <$> chars "c1"); Some (Some <$> chars "c1")]
    = Ok ([], "foo bar baz"%string) ∧
  Spans.convert_token_annotations_to_spans
    ["foo"; "bar"; "baz"; "qux"]%string
    [None; Some (Some <$> chars "c1"); Some (Some <$> chars "c1"); None]
    = Ok ([(4, 11)], "foo bar baz qux"%string).
Proof. split; reflexivity. Qed.

(** * The merge table *)

Import Bpe.

Lemma py_dict_reverse `{Countable K} {V} (items : list (K * V)) :
  py_dict (reverse items) = list_to_map items.
Proof.
  induction items as [|[k v] items IH]; [done|].
  rewrite reverse_cons, py_dict_snoc, IH. done.
Qed.

Lemma first_occurrence_wins {K} `{Countable K} (keys : list K) : ∀ n i key,
  keys !! i = Some key →
  (∀ k, (k < i)%nat → keys !! k ≠ Some key) →
  (list_to_map (imap (λ i code, (code, (n + i)%nat)) keys) : gmap K nat)
    !! key = Some (n + i)%nat.
Proof.
  induction keys as [|c keys IH]; intros n i key Hi Hfirst; [done|].
  rewrite imap_cons. cbn [list_to_map foldr]. simpl.
  destruct i as [|i]; simpl in Hi.
  - simplify_eq. rewrite Nat.add_0_r. apply lookup_insert_eq.
  - rewrite lookup_insert_ne.
    + rewrite (imap_ext _ (λ i code, (code, (S n + i)%nat))).
      * rewrite IH with (i := i); [f_equal; lia | done |].
        intros k Hk. apply (Hfirst (S k)). lia.
      * intros; simpl. f_equal. lia.
    + intros ->. by apply (Hfirst 0%nat); [lia|].
Qed.

Lemma init_bpe_codes codes sep ign :
  init codes sep ign =
    Ok (MkBPE (list_to_map (imap (λ i code, (code, i)) (parse_codes codes)))
              ign sep).
Proof. unfold init. by rewrite py_dict_reverse. Qed.

Lemma init_keeps_first (codes : list string) (separator : string)
    (ignore : option (list string)) (key : list string) (i : nat) :
  parse_codes codes !! i = Some key →
  (∀ k, (k < i)%nat → parse_codes codes !! k ≠ Some key) →
  ∃ self, init codes separator ignore = Ok self ∧
          bpe_codes self !! key = Some i.
Proof.
  intros Hi Hfirst. rewrite init_bpe_codes. eexists; split; [done|].
  simpl. by apply (first_occurrence_wins _ 0%nat).
Qed.

(** C8: a field tuple declared more than once receives the position of its
    earliest declaration; the later ones leave no trace. *)
Theorem init_keeps_earliest_priority (codes : list string)
    (separator : string) (ignore : option (list string))
    (key : list string) (i j : nat) :
  parse_codes codes !! i = Some key →
  parse_codes codes !! j = Some key →
  (i < j)%nat →
  (∀ k, (k < i)%nat → parse_codes codes !! k ≠ Some key) →
  ∃ self, init codes separator ignore = Ok self ∧
          bpe_codes self !! key = Some i.
Proof.
  intros Hi _ _ Hfirst. rewrite init_bpe_codes. eexists; split; [done|].
  simpl. by apply (first_occurrence_wins _ 0%nat).
Qed.

Lemma init_keeps_earliest_priority_witness :
  ∃ self, init ["a b"; "c d"; "a  b"; "a b"]%string "@@"%string None = Ok self ∧
          bpe_codes self !! ["a"; "b"]%string = Some 0%nat.
Proof.
  apply (init_keeps_earliest_priority _ _ _ _ 0%nat 2%nat);
    [reflexivity | reflexivity | lia | intros k Hk; lia].
Defined.

(** C5, as the code behaves: construction succeeds for every sequence of
    declarations; a declaration is not checked for having two fields, and
    whatever tuple of fields it splits into becomes a key of the table. *)
Theorem init_accepts_every_declaration (codes : list string)
    (separator : string) (ignore : option (list string)) :
  ∃ self, init codes separator ignore = Ok self ∧
          ∀ declaration, declaration ∈ codes →
            is_Some (bpe_codes self !! split declaration).
Proof.
  unfold init. eexists; split; [done|]. simpl.
  intros declaration Hin.
  apply py_dict_is_Some. rewrite fmap_reverse, elem_of_reverse.
  rewrite fmap_imap. unfold compose; simpl.
  apply list_elem_of_lookup_1 in Hin as [i Hi].
  apply list_elem_of_lookup. exists i.
  rewrite list_lookup_imap. unfold parse_codes.
  by rewrite list_lookup_fmap, Hi.
Qed.

(** C5 as stated does not hold: a declaration of three fields is accepted. *)
Lemma init_accepts_three_fields :
  length (split "a b c") ≠ 2%nat ∧
  ∃ self, init ["a b c"%string] "@@"%string None = Ok self ∧
          bpe_codes self !! ["a"; "b"; "c"]%string = Some 0%nat.
Proof. split; [by vm_compute|]. eexists; split; reflexivity. Qed.

(** * The merge loop *)

Lemma encode_loop_unfold bpe_codes word :
  encode_loop bpe_codes word =
    pairs ← get_pairs word;
    bigram ← min_pair bpe_codes pairs;
    match bpe_codes !! [bigram.1; bigram.2] with
    | None => Ok word
    | Some _ =>
        let new_word := merge_pass bigram.1 bigram.2 word in
        if decide (length new_word = 1%nat) then Ok new_word
        else encode_loop bpe_codes new_word
    end.
Proof.
  funelim (encode_loop bpe_codes word); clear Heqcall;
    repeat match goal with
    | Hg : get_pairs _ = _ |- _ => rewrite Hg; simpl
    | Hm : min_pair _ _ = _ |- _ => rewrite Hm; simpl
    | Hl : _ !! _ = _ |- _ => rewrite Hl; simpl
    | Hd : decide _ = _ |- _ => rewrite Hd; simpl
    end; done.
Qed.

Lemma priority_lt_irrefl a : priority_lt a a = false.
Proof. destruct a; simpl; [apply Nat.ltb_irrefl | done]. Qed.

Lemma priority_le_trans a b c :
  priority_lt b a = false → priority_lt c b = false →
  priority_lt c a = false.
Proof.
  destruct a, b, c; simpl; try done.
  rewrite !Nat.ltb_ge. lia.
Qed.

Lemma min_pair_least bpe_codes pairs bigram :
  min_pair bpe_codes pairs = Ok bigram →
  ∀ q, q ∈ pairs →
    priority_lt (priority bpe_codes q) (priority bpe_codes bigram) = false.
Proof.
  destruct pairs as [|p rest]; [done|]. simpl. intros [= <-].
  set (f := λ best q, if priority_lt (priority bpe_codes q)
                           (priority bpe_codes best) then q else best).
  assert (∀ rest p,
    priority_lt (priority bpe_codes p)
      (priority bpe_codes (foldl f p rest)) = false ∧
    ∀ q, q ∈ rest →
      priority_lt (priority bpe_codes q)
        (priority bpe_codes (foldl f p rest)) = false) as Hinv.
  { clear. induction rest as [|q rest IH]; intros p; simpl.
    - split; [apply priority_lt_irrefl | by intros ? ?%elem_of_nil].
    - destruct (IH (f p q)) as [Hbest Hrest].
      assert (priority_lt (priority bpe_codes p)
                (priority bpe_codes (f p q)) = false ∧
              priority_lt (priority bpe_codes q)
                (priority bpe_codes (f p q)) = false) as [Hp Hq].
      { unfold f.
        destruct (priority_lt (priority bpe_codes q) (priority bpe_codes p))
          eqn:Hlt; split; auto using priority_lt_irrefl.
        destruct (priority bpe_codes p), (priority bpe_codes q);
          simpl in *; try done.
        apply Nat.ltb_lt in Hlt. apply Nat.ltb_ge. lia. }
      split; [by apply (priority_le_trans _ (priority bpe_codes (f p q)))|].
      intros q' [->|Hin]%elem_of_cons; [|auto].
      by apply (priority_le_trans _ (priority bpe_codes (f p q))). }
  destruct (Hinv rest p) as [Hp Hrest].
  intros q [->|Hin]%elem_of_cons; auto.
Qed.

(** C9: in an iteration of the merge loop that selects a pair of the table
    (the first pair of least priority among the adjacent pairs), the pass
    over the word is the specified one: scanning from the left, every
    occurrence of the pair that does not overlap a merged one becomes one
    symbol and the other symbols are copied; the loop goes on with that
    word unless one symbol is left. *)
Theorem encode_merges_every_occurrence (bpe_codes : table)
    (word : list string) (pairs : list (string * string))
    (bigram : string * string) (rank : nat) :
  get_pairs word = Ok pairs →
  min_pair bpe_codes pairs = Ok bigram →
  bpe_codes !! [bigram.1; bigram.2] = Some rank →
  bigram ∈ pairs ∧
  (∀ q, q ∈ pairs → priority_lt (priority bpe_codes q) (Some rank) = false) ∧
  merge_pass bigram.1 bigram.2 word =
    merge_every_occurrence bigram.1 bigram.2 word ∧
  encode_loop bpe_codes word =
    if decide (length (merge_every_occurrence bigram.1 bigram.2 word) = 1%nat)
    then Ok (merge_every_occurrence bigram.1 bigram.2 word)
    else encode_loop bpe_codes (merge_every_occurrence bigram.1 bigram.2 word).
Proof.
  intros Hpairs Hmin Hrank.
  split; [by eapply min_pair_elem|].
  split.
  { intros q Hq. pose proof (min_pair_least _ _ _ Hmin q Hq) as Hle.
    unfold priority at 2 in Hle. by rewrite Hrank in Hle. }
  split; [apply merge_pass_spec|].
  rewrite encode_loop_unfold, Hpairs; simpl. rewrite Hmin; simpl.
  rewrite Hrank. by rewrite merge_pass_spec.
Qed.

Lemma encode_merges_every_occurrence_witness :
  let word := ["a"; "b"; "a"; "b"; "</w>"]%string in
  ("a", "b")%string ∈ pairs_after "a"%string (tail word) ∧
  (∀ q, q ∈ pairs_after "a"%string (tail word) →
     priority_lt (priority table_a_b q) (Some 0%nat) = false) ∧
  merge_pass "a" "b" word = merge_every_occurrence "a" "b" word ∧
  encode_loop table_a_b word =
    if decide (length (merge_every_occurrence "a" "b" word) = 1%nat)
    then Ok (merge_every_occurrence "a" "b" word)
    else encode_loop table_a_b (merge_every_occurrence "a" "b" word).
Proof.
  exact (encode_merges_every_occurrence table_a_b
           ["a"; "b"; "a"; "b"; "</w>"]%string _ ("a", "b")%string 0%nat
           eq_refl eq_refl eq_refl).
Defined.

Example merge_pass_two_occurrences :
  merge_pass "a" "b" ["a"; "b"; "c"; "a"; "b"; "a"; "</w>"]%string
    = ["ab"; "c"; "ab"; "a"; "</w>"]%string.
Proof. reflexivity. Qed.

(** * The segmentation cache *)

Lemma segment_word_site self word pieces site :
  segment_word self word = Ok (pieces, Some site) → site = Computed.
Proof.
  unfold segment_word, encode. destruct (ignored self word); [done|].
  simpl. rewrite lookup_empty.
  destruct (encode_word word (bpe_codes self)) as [w|]; simpl; [|done].
  destruct (last w); [|done]. by intros [= _ <-].
Qed.

Lemma segment_words_sites self words : ∀ pieces sites,
  segment_words self words = Ok (pieces, sites) →
  Forall (λ site, site = Computed) sites.
Proof.
  induction words as [|word words IH]; intros pieces sites; simpl.
  - by intros [= _ <-].
  - destruct (segment_word self word) as [[w site]|] eqn:Hw; simpl; [|done].
    destruct (segment_words self words) as [[r rs]|]; simpl; [|done].
    intros [= _ <-]. apply Forall_app. split; [|by eapply IH].
    destruct site as [site|]; simpl; [|done].
    apply segment_word_site in Hw as ->. by repeat constructor.
Qed.

(** C3, as the code behaves: [encode] caches by input word in the
    dictionary its caller passes. A word found there is returned as stored,
    the merge table not being consulted; a word not found is segmented and
    stored. A call without a dictionary works on a new empty one, and that
    is how [BPE.segment] calls it: each of its [encode] calls computes the
    segmentation, none retrieves a stored one. *)
Theorem encode_cache_is_per_call (orig : string) (bpe_codes : table)
    (cache : gmap string (list string)) :
  (∀ word, cache !! orig = Some word →
     encode orig bpe_codes (Some cache) = Ok (Encoded word cache FromCache)) ∧
  (cache !! orig = None →
     encode orig bpe_codes (Some cache) =
       word ← encode_word orig bpe_codes;
       Ok (Encoded word (<[orig := word]> cache) Computed)) ∧
  encode orig bpe_codes None = encode orig bpe_codes (Some ∅) ∧
  (∀ self sentence sites,
     segment_sites self sentence = Ok sites →
     Forall (λ site, site = Computed) sites).
Proof.
  repeat split.
  - intros word Hhit. unfold encode. simpl. by rewrite Hhit.
  - intros Hmiss. unfold encode. simpl. by rewrite Hmiss.
  - intros self sentence sites. unfold segment_sites.
    destruct (segment_words self (split sentence)) as [[pieces rs]|] eqn:Hs;
      simpl; [|done].
    intros [= <-]. by eapply segment_words_sites.
Qed.

Lemma encode_cache_is_per_call_witness :
  encode "ab" table_a_b (Some {[ "ab"%string := ["x"; "y"]%string ]})
    = Ok (Encoded ["x"; "y"]%string {[ "ab"%string := ["x"; "y"]%string ]}
            FromCache) ∧
  Forall (λ site, site = Computed) [Computed; Computed].
Proof.
  pose proof (encode_cache_is_per_call "ab" table_a_b
                {[ "ab"%string := ["x"; "y"]%string ]}) as (Hhit & _ & _ & Hseg).
  split.
  - apply Hhit. reflexivity.
  - apply (Hseg (MkBPE table_a_b None "@@") "ab ab"%string). reflexivity.
Defined.

(** C3 as stated does not hold: the segmenter built from the rule "a b"
    segments "ab" by running the merge loop each time, for a second call
    as for a second occurrence in one sentence. *)
Lemma segment_recomputes_known_word :
  (self ← init ["a b"%string] "@@" None; segment_sites self "ab")
    = Ok [Computed] ∧
  (self ← init ["a b"%string] "@@" None; segment_sites self "ab ab")
    = Ok [Computed; Computed] ∧
  (self ← init ["a b"%string] "@@" None; segment self "ab ab")
    = Ok "ab ab"%string.
Proof. repeat split; reflexivity. Qed.

(** * The tokenizer adapter on a closed stream *)

Import Tokenizer.

Lemma read_segment_blank lines :
  Forall (λ line, line = newline) lines →
  read_segment lines = (EmptyString, []).
Proof.
  induction 1 as [|line lines -> _ IH]; [done|].
  cbn [read_segment]. by rewrite decide_True.
Qed.

(** C6, as the code behaves: when the tokenizer's output closes before a
    line other than the bare newline arrives, the empty read is taken as
    the response and a call with non-blank input returns the empty token
    list; it does not fail. *)
Theorem tokenize_closed_stream_returns_nothing
    (encode_utf8 : string → string) (decode_utf8 : string → result string)
    (self : DataProcessor) (t : text) :
  String.length (strip t) ≠ 0%nat →
  Forall (λ line, line = newline) (stdout (tokenizer self)) →
  decode_utf8 EmptyString = Ok EmptyString →
  (tokenize encode_utf8 decode_utf8 self t).1 = Ok [].
Proof.
  intros Htext Hblank Hdecode. unfold tokenize.
  destruct (decide (String.length (strip t) = 0%nat)) as [?|_]; [done|].
  simpl. rewrite (read_segment_blank _ Hblank). simpl.
  change (rstrip_with isspace_byte EmptyString) with EmptyString.
  rewrite Hdecode. simpl. by destruct (bpe self).
Qed.

Lemma tokenize_closed_stream_returns_nothing_witness :
  (tokenize id decode_ascii
     (MkDataProcessor None "en" (Process [] [newline; newline]))
     (Str "Hello, world!")).1 = Ok [].
Proof.
  apply tokenize_closed_stream_returns_nothing;
    [by vm_compute | by repeat constructor | reflexivity].
Defined.

(** C6 as stated does not hold: on a closed stream the call returns a
    token list, the empty one. *)
Lemma tokenize_closed_stream_no_error :
  tokenize id decode_ascii (MkDataProcessor None "en" (Process [] []))
    (Str "Hello, world!")
  = (Ok [], Process ["Hello, world!" +:+ newline +:+ newline] []).
Proof. reflexivity. Qed.

(** * The remapper on a layout *)

Module LayoutFacts.
Import Layout.

Section Arith.
Context {A : Type}.
Implicit Types (W : list (list A * A)) (g : list A) (d : A).

Lemma tokenized_cons g d W :
  tokenized ((g, d) :: W) = g ++ d :: tokenized W.
Proof. unfold tokenized. simpl. by rewrite <- app_assoc. Qed.

Lemma expand_end_0 W : expand_end W 0 = 0%nat.
Proof. done. Qed.

Lemma expand_end_S g d W j :
  expand_end ((g, d) :: W) (S j) = S (length g + expand_end W j).
Proof.
  unfold expand_end, boundary.
  change (take (S j) ((g, d) :: W)) with ((g, d) :: take j W).
  rewrite tokenized_cons, length_app. simpl. lia.
Qed.

Lemma expand_start_0 g d W : expand_start ((g, d) :: W) 0 = length g.
Proof. done. Qed.

Lemma expand_start_S g d W j :
  expand_start ((g, d) :: W) (S j) = S (length g + expand_start W j).
Proof.
  unfold expand_start. pose proof (expand_end_S g d W j) as Hend.
  unfold expand_end in Hend. rewrite Hend. unfold gap. simpl.
  by rewrite Nat.add_assoc.
Qed.

Lemma separated_bounds T : ∀ k n a b,
  separated k T n → (a, b) ∈ T → (k ≤ a ∧ a < b ∧ b ≤ n)%nat.
Proof.
  induction T as [|[a' b'] T IH]; intros k n a b Hsep Hin.
  - by apply elem_of_nil in Hin.
  - destruct Hsep as (? & ? & ? & Hsep).
    apply elem_of_cons in Hin as [[= -> ->]|Hin]; [lia|].
    specialize (IH _ _ _ _ Hsep Hin). lia.
Qed.

Lemma separated_weaken T k k' n :
  separated k T n → (k' ≤ k)%nat → separated k' T n.
Proof. destruct T as [|[a b] T]; simpl; [done|]. intros (?&?&?&?) ?. repeat split; [lia|lia|lia|done]. Qed.
End Arith.

(** The state of the pending span when the cursor is at text position
    [k]: none pending and the spans [T] to come, or the first span of [T]
    pending. *)
Inductive shape (k n : nat) : option Z → list (nat * nat) → Prop :=
| shape_idle T : separated k T n → shape k n None T
| shape_open a b T :
    (a < k)%nat → (k ≤ b)%nat → (b ≤ n)%nat → separated (S b) T n →
    shape k n (Some (Z.of_nat a)) ((a, b) :: T).

Section Walk.
Import Remap.
Context {A : Type} `{EqDecision A}.
Variables starts ends : gmap Z Z.
Variable tok : list A.

(** The checks made while [n] dropped characters are skipped. *)
Fixpoint walk_gap (n i off : nat) (ts : option Z) (out : list (Z * Z))
    : result state :=
  match n with
  | O => Ok (State i off ts out)
  | S n =>
      st' ← check_position starts ends (State (S i) (S off) ts out);
      walk_gap n (S i) (S off) (true_start st') (remapped_indices st')
  end.

Lemma skip_unmatched_gap d g : ∀ pre rest off ts out,
  tok = pre ++ g ++ d :: rest → d ∉ g →
  skip_unmatched starts ends tok d (length pre) off ts out =
    walk_gap (length g) (length pre) off ts out.
Proof.
  induction g as [|x g IH]; intros pre rest off ts out Htok Hd;
    rewrite RemapFacts.skip_unmatched_unfold.
  - rewrite Htok. simpl. rewrite list_lookup_middle by done.
    by rewrite decide_True.
  - apply not_elem_of_cons in Hd as [Hdx Hd].
    assert (tok !! length pre = Some x) as ->.
    { rewrite Htok. by apply list_lookup_middle. }
    rewrite decide_False by done.
    rewrite decide_False.
    2:{ rewrite Htok, length_app. simpl. lia. }
    simpl. destruct (check_position _ _ _) as [st'|]; simpl; [|done].
    replace (S (length pre)) with (length (pre ++ [x]))
      by (rewrite length_app; simpl; lia).
    apply (IH _ rest); [by rewrite Htok, <- app_assoc | done].
Qed.

Lemma walk_gap_quiet n : ∀ i off ts out,
  (∀ p, (i < p ≤ i + n)%nat →
     starts !! Z.of_nat p = None ∧ ends !! Z.of_nat p = None) →
  walk_gap n i off ts out = Ok (State (i + n) (off + n) ts out).
Proof.
  induction n as [|n IH]; intros i off ts out Hquiet; simpl.
  - by rewrite !Nat.add_0_r.
  - rewrite RemapFacts.check_position_none; simpl;
      [|apply Hquiet; lia|apply Hquiet; lia].
    rewrite IH; [|intros p Hp; apply Hquiet; lia].
    do 2 f_equal; lia.
Qed.

Lemma walk_gap_last n : ∀ i off ts out,
  (∀ p, (i < p ≤ i + n)%nat →
     starts !! Z.of_nat p = None ∧ ends !! Z.of_nat p = None) →
  walk_gap (S n) i off ts out =
    check_position starts ends (State (i + S n) (off + S n) ts out).
Proof.
  induction n as [|n IH]; intros i off ts out Hquiet.
  - simpl. rewrite !Nat.add_1_r.
    destruct (check_position _ _ _) as [[? ? ? ?]|] eqn:Hc; simpl; [|done].
    apply RemapFacts.check_position_cursor in Hc as [Hi Ho].
    simpl in Hi, Ho. by subst.
  - change (walk_gap (S (S n)) i off ts out) with
      (st' ← check_position starts ends (State (S i) (S off) ts out);
       walk_gap (S n) (S i) (S off) (true_start st') (remapped_indices st')).
    rewrite RemapFacts.check_position_none;
      [|apply Hquiet; simpl; lia|apply Hquiet; simpl; lia].
    unfold mbind, result_bind. cbv beta iota.
    cbn [true_start remapped_indices].
    rewrite IH; [|intros p Hp; apply Hquiet; lia].
    do 2 f_equal; lia.
Qed.

Lemma check_position_end i off t out :
  starts !! Z.of_nat i = None → is_Some (ends !! Z.of_nat i) →
  check_position starts ends (State i off (Some t) out) =
    Ok (State i off None (out ++ [(t, Z.of_nat i - Z.of_nat off)])).
Proof.
  intros Hs He. unfold check_position. simpl.
  rewrite decide_False by (rewrite Hs; by intros [? ?]).
  by rewrite decide_True.
Qed.

Lemma for_body_gap d g pre rest off ts out :
  tok = pre ++ g ++ d :: rest → d ∉ g →
  for_body starts ends tok d (State (length pre) off ts out) =
    st1 ← check_position starts ends (State (length pre) off ts out);
    st2 ← walk_gap (length g) (length pre) off
            (true_start st1) (remapped_indices st1);
    Ok (State (S (tokenized_idx st2)) (current_offset st2)
              (true_start st2) (remapped_indices st2)).
Proof.
  intros Htok Hd. unfold for_body.
  destruct (check_position _ _ _) as [st1|] eqn:Hc; simpl; [|done].
  apply RemapFacts.check_position_cursor in Hc as [-> ->]. simpl.
  by rewrite (skip_unmatched_gap d g pre rest).
Qed.

(** An iteration in which no position is registered. *)
Lemma for_body_quiet d g pre rest off ts out :
  tok = pre ++ g ++ d :: rest → d ∉ g →
  (∀ p, (length pre ≤ p ≤ length pre + length g)%nat →
     starts !! Z.of_nat p = None ∧ ends !! Z.of_nat p = None) →
  for_body starts ends tok d (State (length pre) off ts out) =
    Ok (State (S (length pre + length g)) (off + length g) ts out).
Proof.
  intros Htok Hd Hquiet. rewrite (for_body_gap d g pre rest) by done.
  rewrite RemapFacts.check_position_none; simpl;
    [|apply Hquiet; lia|apply Hquiet; lia].
  rewrite walk_gap_quiet; [done|]. intros p Hp. apply Hquiet. lia.
Qed.

(** An iteration that meets a start on the kept character. *)
Lemma for_body_open d g pre rest off ts out :
  tok = pre ++ g ++ d :: rest → d ∉ g →
  (∀ p, (length pre ≤ p < length pre + length g)%nat →
     starts !! Z.of_nat p = None ∧ ends !! Z.of_nat p = None) →
  is_Some (starts !! Z.of_nat (length pre + length g)) →
  for_body starts ends tok d (State (length pre) off ts out) =
    Ok (State (S (length pre + length g)) (off + length g)
          (Some (Z.of_nat (length pre + length g)
                 - Z.of_nat (off + length g))) out).
Proof.
  intros Htok Hd Hquiet Hstart. rewrite (for_body_gap d g pre rest) by done.
  destruct (length g) as [|n] eqn:Hn.
  - rewrite Nat.add_0_r in *.
    rewrite RemapFacts.check_position_start by done. simpl.
    by rewrite !Nat.add_0_r.
  - rewrite RemapFacts.check_position_none;
      [|apply Hquiet; simpl; lia|apply Hquiet; simpl; lia].
    unfold mbind at 1, result_bind at 1. cbv beta iota.
    cbn [true_start remapped_indices].
    rewrite walk_gap_last; [|intros p Hp; apply Hquiet; lia].
    rewrite RemapFacts.check_position_start by done. done.
Qed.

(** An iteration that meets an end where it begins. *)
Lemma for_body_close d g pre rest off t out :
  tok = pre ++ g ++ d :: rest → d ∉ g →
  starts !! Z.of_nat (length pre) = None →
  is_Some (ends !! Z.of_nat (length pre)) →
  (∀ p, (length pre < p ≤ length pre + length g)%nat →
     starts !! Z.of_nat p = None ∧ ends !! Z.of_nat p = None) →
  for_body starts ends tok d (State (length pre) off (Some t) out) =
    Ok (State (S (length pre + length g)) (off + length g) None
          (out ++ [(t, Z.of_nat (length pre) - Z.of_nat off)])).
Proof.
  intros Htok Hd Hs He Hquiet. rewrite (for_body_gap d g pre rest) by done.
  rewrite check_position_end by done.
  unfold mbind at 1, result_bind at 1. cbv beta iota.
  cbn [true_start remapped_indices].
  by rewrite walk_gap_quiet.
Qed.
End Walk.

Section Registered.
Import Remap.
Context {A : Type} `{EqDecision A}.
Variables starts ends : gmap Z Z.
Implicit Types (W : list (list A * A)) (T : list (nat * nat)).

(** What is registered from tokenized position [P] on, when [P] is where
    text position [k] begins and [W] lays out the text from there. *)
Definition starts_from (P k : nat) W T : Prop :=
  ∀ p, (P ≤ p)%nat →
    is_Some (starts !! Z.of_nat p) ↔
    ∃ a b, (a, b) ∈ T ∧ (k ≤ a)%nat ∧ p = (P + expand_start W (a - k))%nat.

Definition ends_from (P k : nat) W T : Prop :=
  ∀ p, (P ≤ p)%nat →
    is_Some (ends !! Z.of_nat p) ↔
    ∃ a b, (a, b) ∈ T ∧ (k ≤ b)%nat ∧ p = (P + expand_end W (b - k))%nat.

Lemma start_in_iteration P k g d W T p :
  starts_from P k ((g, d) :: W) T →
  (P ≤ p ≤ P + length g)%nat →
  is_Some (starts !! Z.of_nat p) →
  p = (P + length g)%nat ∧ ∃ b, (k, b) ∈ T.
Proof.
  intros Hspec Hp (a & b & Hin & Hka & ->)%Hspec; [|lia].
  destruct (a - k)%nat as [|j] eqn:Hj.
  - rewrite expand_start_0. split; [done|]. exists b.
    by replace k with a by lia.
  - rewrite expand_start_S in Hp. lia.
Qed.

Lemma end_in_iteration P k g d W T p :
  ends_from P k ((g, d) :: W) T →
  (P ≤ p ≤ P + length g)%nat →
  is_Some (ends !! Z.of_nat p) →
  p = P ∧ ∃ a, (a, k) ∈ T.
Proof.
  intros Hspec Hp (a & b & Hin & Hkb & ->)%Hspec; [|lia].
  destruct (b - k)%nat as [|j] eqn:Hj.
  - rewrite expand_end_0. split; [lia|]. exists a.
    by replace k with b by lia.
  - rewrite expand_end_S in Hp. lia.
Qed.

Lemma start_registered P k g d W T b :
  starts_from P k ((g, d) :: W) T → (k, b) ∈ T →
  is_Some (starts !! Z.of_nat (P + length g)).
Proof.
  intros Hspec Hin. apply Hspec; [lia|]. exists k, b.
  split; [done|]. split; [done|]. by rewrite Nat.sub_diag, expand_start_0.
Qed.

Lemma end_registered P k g d W T a :
  ends_from P k ((g, d) :: W) T → (a, k) ∈ T →
  is_Some (ends !! Z.of_nat P).
Proof.
  intros Hspec Hin. apply Hspec; [lia|]. exists a, k.
  split; [done|]. split; [done|].
  rewrite Nat.sub_diag, expand_end_0. lia.
Qed.

Lemma starts_from_next P k g d W T T' :
  starts_from P k ((g, d) :: W) T →
  (∀ a b, (a, b) ∈ T' → (a, b) ∈ T) →
  (∀ a b, (a, b) ∈ T → (S k ≤ a)%nat → (a, b) ∈ T') →
  starts_from (S (P + length g)) (S k) W T'.
Proof.
  intros Hspec Hsub Hsup p Hp. split.
  - intros (a & b & Hin & Hka & ->)%Hspec; [|lia].
    destruct (a - k)%nat as [|j] eqn:Hj.
    { rewrite expand_start_0 in Hp. lia. }
    exists a, b. split; [apply Hsup; [done|lia]|]. split; [lia|].
    rewrite expand_start_S. replace (a - S k)%nat with j by lia. lia.
  - intros (a & b & Hin & Hka & ->). apply Hspec; [lia|]. exists a, b.
    split; [by apply Hsub|]. split; [lia|].
    replace (a - k)%nat with (S (a - S k)) by lia.
    rewrite expand_start_S. lia.
Qed.

Lemma ends_from_next P k g d W T T' :
  ends_from P k ((g, d) :: W) T →
  (∀ a b, (a, b) ∈ T' → (a, b) ∈ T) →
  (∀ a b, (a, b) ∈ T → (S k ≤ b)%nat → (a, b) ∈ T') →
  ends_from (S (P + length g)) (S k) W T'.
Proof.
  intros Hspec Hsub Hsup p Hp. split.
  - intros (a & b & Hin & Hkb & ->)%Hspec; [|lia].
    destruct (b - k)%nat as [|j] eqn:Hj.
    { rewrite expand_end_0 in Hp. lia. }
    exists a, b. split; [apply Hsup; [done|lia]|]. split; [lia|].
    rewrite expand_end_S. replace (b - S k)%nat with j by lia. lia.
  - intros (a & b & Hin & Hkb & ->). apply Hspec; [lia|]. exists a, b.
    split; [by apply Hsub|]. split; [lia|].
    replace (b - k)%nat with (S (b - S k)) by lia.
    rewrite expand_end_S. lia.
Qed.

Lemma separated_no_end_at k T n a :
  separated k T n → (a, k) ∉ T.
Proof.
  intros Hsep Hin. pose proof (separated_bounds _ _ _ _ _ Hsep Hin). lia.
Qed.

Lemma for_loop_layout tail W : ∀ tok pre k off ts out T,
  tok = pre ++ tokenized W ++ tail →
  clean W →
  (off + k = length pre)%nat →
  starts_from (length pre) k W T →
  ends_from (length pre) k W T →
  shape k (k + length W) ts T →
  (st ← for_loop starts ends tok (detokenized W)
          (State (length pre) off ts out); Ok (flush st))
  = Ok (out ++ (zspan <$> T)).
Proof.
  induction W as [|[g d] W IH];
    intros tok pre k off ts out T Htok Hclean Hoff Hs He Hshape.
  - simpl. unfold flush; simpl. rewrite Nat.add_0_r in Hshape.
    inversion Hshape as [T0 Hsep|a b T' Ha Hb Hbn Hsep]; subst.
    + destruct T as [|[a b] T]; [by rewrite app_nil_r|].
      simpl in Hsep. lia.
    + destruct T' as [|[a' b'] T']; [|simpl in Hsep; lia].
      simpl. do 3 f_equal. unfold zspan; simpl. f_equal. lia.
  - rewrite tokenized_cons, <- app_assoc in Htok. simpl in Htok.
    apply Forall_cons in Hclean as [Hd Hclean]. simpl in Hd.
    change (detokenized ((g, d) :: W)) with (d :: detokenized W).
    cbn [for_loop].
    assert (length (pre ++ g ++ [d]) = S (length pre + length g)) as Hlen.
    { rewrite !length_app. simpl. lia. }
    assert (tok = (pre ++ g ++ [d]) ++ tokenized W ++ tail) as Htok'.
    { rewrite Htok, <- !app_assoc. done. }
    replace (k + length ((g, d) :: W))%nat with (S k + length W)%nat
      in Hshape by (simpl; lia).
    inversion Hshape as [T0 Hsep|a b T' Ha Hb Hbn Hsep]; subst ts.
    + subst T0.
      assert ((∃ b0 T', T = (k, b0) :: T') ∨ ¬ ∃ b, (k, b) ∈ T)
        as [(b0 & T' & ->)|Hnone].
      { destruct T as [|[a0 b0] T']; [right; by intros [? ?%elem_of_nil]|].
        destruct (decide (a0 = k)) as [->|Hne]; [left; eauto|right].
        destruct Hsep as (Hka & Hab & Hbn & Hsep).
        intros [b [[= ? ?]|Hin]%elem_of_cons]; [done|].
        pose proof (separated_bounds _ _ _ _ _ Hsep Hin). lia. }
      * (* a span starts on this character *)
        destruct Hsep as (Hka & Hab & Hbn & Hsep).
        rewrite (for_body_open _ _ _ d g pre (tokenized W ++ tail)); try done.
        2:{ intros p Hp. split; apply eq_None_not_Some; intros Hsome.
            - destruct (start_in_iteration _ _ _ _ _ _ p Hs ltac:(lia) Hsome)
                as [? _]; lia.
            - destruct (end_in_iteration _ _ _ _ _ _ p He ltac:(lia) Hsome)
                as [_ [a Hin]].
              by eapply (separated_no_end_at k ((k, b0) :: T')) in Hin. }
        2:{ eapply start_registered; [done | apply list_elem_of_here]. }
        unfold mbind at 1, result_bind at 1. cbv beta iota.
        replace (Z.of_nat (length pre + length g) - Z.of_nat (off + length g))
          with (Z.of_nat k) by lia.
        rewrite <- Hlen.
        apply (IH tok (pre ++ g ++ [d]) (S k)); try done; try lia.
        -- rewrite Hlen. eapply starts_from_next; [done|done|].
           intros ? ? ? ?. done.
        -- rewrite Hlen. eapply ends_from_next; [done|done|].
           intros ? ? ? ?. done.
        -- apply shape_open; [lia|lia|lia|done].
      * (* nothing is registered in this iteration *)
        rewrite (for_body_quiet _ _ _ d g pre (tokenized W ++ tail)); try done.
        2:{ intros p Hp. split; apply eq_None_not_Some; intros Hsome.
            - by destruct (start_in_iteration _ _ _ _ _ _ p Hs ltac:(lia) Hsome)
                as [_ ?].
            - destruct (end_in_iteration _ _ _ _ _ _ p He ltac:(lia) Hsome)
                as [_ [a Hin]].
              by eapply separated_no_end_at in Hin. }
        unfold mbind at 1, result_bind at 1. cbv beta iota.
        rewrite <- Hlen.
        apply (IH tok (pre ++ g ++ [d]) (S k)); try done; try lia.
        -- rewrite Hlen. eapply starts_from_next; [done|done|].
           intros ? ? ? ?. done.
        -- rewrite Hlen. eapply ends_from_next; [done|done|].
           intros ? ? ? ?. done.
        -- apply shape_idle. destruct T as [|[a0 b0] T']; [done|].
           destruct Hsep as (Hka & Hab & Hbn & Hsep).
           repeat split; try done.
           destruct (decide (a0 = k)) as [->|]; [|lia].
           destruct Hnone. exists b0. apply list_elem_of_here.
    + subst T. destruct (decide (b = k)) as [->|Hbk].
      * (* the pending span ends where this iteration begins *)
        rewrite (for_body_close _ _ _ d g pre (tokenized W ++ tail)); try done.
        2:{ apply eq_None_not_Some; intros Hsome.
            destruct (start_in_iteration _ _ _ _ _ _ (length pre) Hs
                        ltac:(lia) Hsome) as [_ [b Hin]].
            apply elem_of_cons in Hin as [[= ? ?]|Hin]; [lia|].
            pose proof (separated_bounds _ _ _ _ _ Hsep Hin). lia. }
        2:{ eapply end_registered; [done|]. apply list_elem_of_here. }
        2:{ intros p Hp. split; apply eq_None_not_Some; intros Hsome.
            - destruct (start_in_iteration _ _ _ _ _ _ p Hs ltac:(lia) Hsome)
                as [_ [b Hin]].
              apply elem_of_cons in Hin as [[= ? ?]|Hin]; [lia|].
              pose proof (separated_bounds _ _ _ _ _ Hsep Hin). lia.
            - destruct (end_in_iteration _ _ _ _ _ _ p He ltac:(lia) Hsome)
                as [? _]; lia. }
        unfold mbind at 1, result_bind at 1. cbv beta iota.
        rewrite <- Hlen.
        transitivity
          (Ok ((out ++ [(Z.of_nat a, Z.of_nat (length pre) - Z.of_nat off)])
                 ++ (zspan <$> T')) : result (list (Z * Z))).
        2:{ rewrite <- app_assoc. simpl. do 3 f_equal.
            unfold zspan; simpl. f_equal. lia. }
        apply (IH tok (pre ++ g ++ [d]) (S k)); try done; try lia.
        -- rewrite Hlen. eapply starts_from_next; [done| |].
           ++ intros ? ? ?. by apply list_elem_of_further.
           ++ intros a' b' [[= -> ->]|Hin]%elem_of_cons ?; [lia|done].
        -- rewrite Hlen. eapply ends_from_next; [done| |].
           ++ intros ? ? ?. by apply list_elem_of_further.
           ++ intros a' b' [[= -> ->]|Hin]%elem_of_cons ?; [lia|done].
        -- by apply shape_idle.
      * (* the pending span stays open *)
        rewrite (for_body_quiet _ _ _ d g pre (tokenized W ++ tail)); try done.
        2:{ intros p Hp. split; apply eq_None_not_Some; intros Hsome.
            - destruct (start_in_iteration _ _ _ _ _ _ p Hs ltac:(lia) Hsome)
                as [_ [b' Hin]].
              apply elem_of_cons in Hin as [[= ? ?]|Hin]; [lia|].
              pose proof (separated_bounds _ _ _ _ _ Hsep Hin). lia.
            - destruct (end_in_iteration _ _ _ _ _ _ p He ltac:(lia) Hsome)
                as [_ [a' Hin]].
              apply elem_of_cons in Hin as [[= ? ?]|Hin]; [lia|].
              pose proof (separated_bounds _ _ _ _ _ Hsep Hin). lia. }
        unfold mbind at 1, result_bind at 1. cbv beta iota.
        rewrite <- Hlen.
        apply (IH tok (pre ++ g ++ [d]) (S k)); try done; try lia.
        -- rewrite Hlen. eapply starts_from_next; [done|done|].
           intros ? ? ? ?. done.
        -- rewrite Hlen. eapply ends_from_next; [done|done|].
           intros ? ? ? ?. done.
        -- apply shape_open; [lia|lia|lia|done].
Qed.
End Registered.

End LayoutFacts.

(** * Round trip of the remapper *)

Import Layout.

Lemma registered_start spans z :
  is_Some (constraint_idx_starts spans !! z) ↔ ∃ e, (z, e) ∈ spans.
Proof.
  unfold constraint_idx_starts. rewrite py_dict_is_Some.
  rewrite <- list_fmap_compose, list_elem_of_fmap. split.
  - intros ([s e] & -> & Hin). by exists e.
  - intros (e & Hin). by exists (z, e).
Qed.

Lemma registered_end spans z :
  is_Some (constraint_idx_ends spans !! z) ↔ ∃ s, (s, z) ∈ spans.
Proof.
  unfold constraint_idx_ends. rewrite py_dict_is_Some.
  rewrite <- list_fmap_compose, list_elem_of_fmap. split.
  - intros ([s e] & -> & Hin). by exists s.
  - intros (s & Hin). by exists (s, z).
Qed.

Lemma elem_of_expanded {A} (W : list (list A * A)) (T : list (nat * nat))
    spans s e :
  spans ≡ₚ expand W <$> (zspan <$> T) →
  (s, e) ∈ spans ↔
  ∃ a b, (a, b) ∈ T ∧ s = Z.of_nat (expand_start W a) ∧
         e = Z.of_nat (expand_end W b).
Proof.
  intros ->. rewrite <- list_fmap_compose, list_elem_of_fmap. split.
  - intros ([a b] & Heq & Hin). exists a, b. split; [done|].
    unfold expand, zspan in Heq; simpl in Heq.
    rewrite !Nat2Z.id in Heq. by simplify_eq.
  - intros (a & b & Hin & -> & ->). exists (a, b). split; [|done].
    unfold expand, zspan; simpl. by rewrite !Nat2Z.id.
Qed.

(** C4, as the code behaves. Let the tokenized sequence be laid out over
    the detokenized one (each kept character preceded by the characters
    dropped in front of it, none of them equal to it), and let the spans
    be the re-expansions of text-space spans that are pairwise apart: every
    start on the tokenized position of a kept character, every end right
    after one, in any order. Then the remapper returns those text-space
    spans, in ascending order, and re-expanding them by the inverse offset
    gives back the original span boundaries. *)
Theorem remap_round_trip {A} `{EqDecision A}
    (W : list (list A * A)) (tail : list A)
    (T : list (nat * nat)) (spans : list (Z * Z)) :
  clean W →
  separated 0 T (length W) →
  spans ≡ₚ expand W <$> (zspan <$> T) →
  remap_constraint_indices (tokenized W ++ tail) (detokenized W) spans
    = Ok (zspan <$> T) ∧
  expand W <$> (zspan <$> T) ≡ₚ spans.
Proof.
  intros Hclean Hsep Hspans. split; [|done].
  unfold remap_constraint_indices, remap_with, initial.
  apply (LayoutFacts.for_loop_layout _ _ tail W (tokenized W ++ tail)
           [] 0%nat 0%nat None [] T); try done.
  - intros p _. rewrite registered_start. split.
    + intros (e & (a & b & Hin & Hs & _)%(elem_of_expanded W T)); [|done].
      exists a, b. split; [done|]. split; [lia|].
      rewrite Nat.sub_0_r. simpl. lia.
    + intros (a & b & Hin & _ & ->). exists (Z.of_nat (expand_end W b)).
      apply (elem_of_expanded W T); [done|]. exists a, b.
      split; [done|]. by rewrite Nat.sub_0_r.
  - intros p _. rewrite registered_end. split.
    + intros (s & (a & b & Hin & _ & He)%(elem_of_expanded W T)); [|done].
      exists a, b. split; [done|]. split; [lia|].
      rewrite Nat.sub_0_r. simpl. lia.
    + intros (a & b & Hin & _ & ->). exists (Z.of_nat (expand_start W a)).
      apply (elem_of_expanded W T); [done|]. exists a, b.
      split; [done|]. by rewrite Nat.sub_0_r.
  - by apply LayoutFacts.shape_idle.
Qed.

Lemma remap_round_trip_witness :
  remap_constraint_indices (chars "fo@@ o bar") (chars "foo bar")
    [(7, 10); (0, 6)] = Ok [(0, 3); (4, 7)] ∧
  expand layout_fo_o_bar <$> [(0, 3); (4, 7)] ≡ₚ [(7, 10); (0, 6)].
Proof.
  apply (remap_round_trip layout_fo_o_bar [] [(0, 3); (4, 7)]%nat
           [(7, 10); (0, 6)]).
  - apply (bool_decide_unpack _). by vm_compute.
  - simpl. lia.
  - apply Permutation_swap.
Defined.

(** C4 as stated does not hold: the spans [[0,5]] and [[0,2]] of
    "fo@@ o bar" are remapped to the same span, so no re-expansion of the
    remapped span gives back both. *)
Lemma remap_round_trip_collapses :
  ¬ ∃ reexpand : list (Z * Z) → list (Z * Z),
      ∀ spans remapped,
        spans = [(0, 5)] ∨ spans = [(0, 2)] →
        remap_constraint_indices (chars "fo@@ o bar") (chars "foo bar") spans
          = Ok remapped →
        reexpand remapped = spans.
Proof.
  intros (reexpand & Hre).
  pose proof (Hre [(0, 5)] [(0, 2)] (or_introl eq_refl) eq_refl) as H5.
  pose proof (Hre [(0, 2)] [(0, 2)] (or_intror eq_refl) eq_refl) as H2.
  congruence.
Qed.

(** * Further properties of the remapper *)

Lemma check_position_same_keys (starts ends starts' ends' : gmap Z Z) st :
  (∀ z, is_Some (starts !! z) ↔ is_Some (starts' !! z)) →
  (∀ z, is_Some (ends !! z) ↔ is_Some (ends' !! z)) →
  check_position starts ends st = check_position starts' ends' st.
Proof.
  intros Hs He. unfold check_position. cbv zeta.
  destruct (decide (is_Some (starts !! _))) as [H1|H1];
    destruct (decide (is_Some (starts' !! _))) as [H1'|H1'];
    try done; try (by apply Hs in H1); try (by apply Hs in H1').
  destruct (decide (is_Some (ends !! _))) as [H2|H2];
    destruct (decide (is_Some (ends' !! _))) as [H2'|H2'];
    try done; try (by apply He in H2); try (by apply He in H2').
Qed.

(** X1: the remapper reads its spans only through the set of their start
    offsets and the set of their end offsets. Two span lists with the same
    starts and the same ends give the same result, whatever their order,
    their repetitions, and which start goes with which end. *)
Theorem remap_reads_boundary_sets {A} `{EqDecision A}
    (tokenized detokenized : list A) (spans spans' : list (Z * Z)) :
  (∀ z, z ∈ spans.*1 ↔ z ∈ spans'.*1) →
  (∀ z, z ∈ spans.*2 ↔ z ∈ spans'.*2) →
  remap_constraint_indices tokenized detokenized spans =
  remap_constraint_indices tokenized detokenized spans'.
Proof.
  intros Hs He. unfold remap_constraint_indices.
  apply RemapFacts.remap_with_ext. intros st.
  apply check_position_same_keys; intros z.
  - rewrite !registered_start. split; intros [e Hin].
    + assert (z ∈ spans.*1) as Hz by (apply list_elem_of_fmap; by exists (z, e)).
      apply Hs, list_elem_of_fmap in Hz as ([s' e'] & -> & Hin'). eauto.
    + assert (z ∈ spans'.*1) as Hz by (apply list_elem_of_fmap; by exists (z, e)).
      apply Hs, list_elem_of_fmap in Hz as ([s' e'] & -> & Hin'). eauto.
  - rewrite !registered_end. split; intros [s Hin].
    + assert (z ∈ spans.*2) as Hz by (apply list_elem_of_fmap; by exists (s, z)).
      apply He, list_elem_of_fmap in Hz as ([s' e'] & -> & Hin'). eauto.
    + assert (z ∈ spans'.*2) as Hz by (apply list_elem_of_fmap; by exists (s, z)).
      apply He, list_elem_of_fmap in Hz as ([s' e'] & -> & Hin'). eauto.
Qed.

Lemma remap_reads_boundary_sets_witness :
  remap_constraint_indices (chars "ab cd ef") (chars "ab cd ef")
    [(0, 2); (3, 5)] =
  remap_constraint_indices (chars "ab cd ef") (chars "ab cd ef")
    [(3, 2); (0, 5); (3, 5)].
Proof.
  apply remap_reads_boundary_sets; intros z; simpl;
    rewrite !elem_of_cons, !elem_of_nil; lia.
Defined.

Lemma ascending_weaken out : ∀ lo hi hi',
  ascending lo out hi → hi ≤ hi' → ascending lo out hi'.
Proof.
  induction out as [|[s e] out IH]; simpl; intros lo hi hi'; [lia|].
  intros (? & ? & Hrest) ?. eauto.
Qed.

Lemma ascending_snoc out : ∀ lo t k,
  ascending lo out t → t ≤ k → ascending lo (out ++ [(t, k)]) k.
Proof.
  induction out as [|[s e] out IH]; simpl; intros lo t k; [lia|].
  intros (? & ? & Hrest) ?. eauto.
Qed.

(** The spans recorded so far, and the pending start, lie in ascending
    order below the text offset [k] of the cursor. *)
Definition recorded_below (k : Z) (st : state) : Prop :=
  Z.of_nat (tokenized_idx st) - Z.of_nat (current_offset st) = k ∧
  match true_start st with
  | Some t => ascending 0 (remapped_indices st) t ∧ t ≤ k
  | None => ascending 0 (remapped_indices st) k
  end.

Section Recorded.
Context {A : Type} `{EqDecision A}.
Variables starts ends : gmap Z Z.
Variable tok : list A.

Lemma check_position_recorded k st st' :
  recorded_below k st → check_position starts ends st = Ok st' →
  recorded_below k st'.
Proof.
  unfold recorded_below, check_position. cbv zeta. intros [Hk Hrec] Hc.
  repeat case_decide.
  - injection Hc as <-. simpl. split; [done|]. rewrite Hk. split; [|lia].
    destruct (true_start st) as [t|]; [|done].
    destruct Hrec. by eapply ascending_weaken.
  - destruct (true_start st) as [t|]; [|done].
    injection Hc as <-. simpl.
    split; [done|]. rewrite Hk. destruct Hrec. by apply ascending_snoc.
  - by injection Hc as <-.
Qed.

Lemma skip_unmatched_recorded c k n : ∀ i off ts out st',
  (S (length tok) - i ≤ n)%nat →
  recorded_below k (State i off ts out) →
  skip_unmatched starts ends tok c i off ts out = Ok st' →
  recorded_below k st'.
Proof.
  induction n as [|n IH]; intros i off ts out st' Hn Hrec;
    rewrite RemapFacts.skip_unmatched_unfold.
  - by rewrite lookup_ge_None_2 by lia.
  - destruct (tok !! i) as [x|]; [|done].
    destruct (decide (c = x)); [by intros [= <-]|].
    destruct (decide (length tok < S i)%nat); [done|].
    destruct (check_position starts ends _) as [st1|] eqn:Hc; simpl; [|done].
    pose proof Hc as Hcur. apply RemapFacts.check_position_cursor in Hcur as [Hi Ho].
    simpl in Hi, Ho.
    apply (check_position_recorded k) in Hc.
    2:{ destruct Hrec as [Hk Hrec]. split; [simpl in *; lia | done]. }
    intros Hskip. eapply (IH (S i) (S off)); [lia| |done].
    destruct st1; simpl in *. by subst.
Qed.

Lemma for_loop_recorded detok : ∀ k st st',
  recorded_below k st → for_loop starts ends tok detok st = Ok st' →
  recorded_below (k + Z.of_nat (length detok)) st'.
Proof.
  induction detok as [|c detok IH]; intros k st st' Hrec; simpl.
  - intros [= <-]. by rewrite Z.add_0_r.
  - unfold for_body.
    destruct (check_position starts ends st) as [st1|] eqn:Hc; simpl; [|done].
    apply (check_position_recorded k) in Hc; [|done].
    destruct (skip_unmatched _ _ _ _ _ _ _ _) as [st2|] eqn:Hskip; simpl;
      [|done].
    eapply (skip_unmatched_recorded c k (S (length tok))) in Hskip;
      [|lia|by destruct st1].
    intros Hloop. apply (IH (k + 1)) in Hloop.
    + by replace (k + Z.of_nat (S (length detok)))
        with (k + 1 + Z.of_nat (length detok)) by lia.
    + destruct Hskip as [Hk Hrec2]. split; [simpl; lia|]. simpl.
      destruct (true_start st2) as [t|].
      * split; [apply Hrec2|]. destruct Hrec2. lia.
      * eapply ascending_weaken; [done|lia].
Qed.
End Recorded.

(** X2: the spans returned by the remapper are ranges of the detokenized
    text listed in ascending order without overlap:
    [0 <= s1 <= e1 <= s2 <= e2 <= ... <= len(detokenized)], whatever the
    spans given. *)
Theorem remap_returns_ascending_ranges {A} `{EqDecision A}
    (tokenized detokenized : list A) (spans out : list (Z * Z)) :
  remap_constraint_indices tokenized detokenized spans = Ok out →
  ascending 0 out (Z.of_nat (length detokenized)).
Proof.
  unfold remap_constraint_indices, remap_with.
  destruct (for_loop _ _ _ _ _) as [st|] eqn:Hloop; simpl; [|done].
  intros [= <-].
  apply (for_loop_recorded _ _ _ _ 0) in Hloop; [|by split; simpl].
  destruct Hloop as [Hk Hrec]. unfold flush.
  rewrite Z.add_0_l in Hk, Hrec.
  destruct (true_start st) as [t|]; [|done].
  rewrite Hk. destruct Hrec. by apply ascending_snoc.
Qed.

Lemma remap_returns_ascending_ranges_witness :
  ascending 0 [(3, 5); (6, 7)] 7.
Proof.
  apply (remap_returns_ascending_ranges (chars "fo@@ o bar") (chars "foo bar")
           [(9, 30); (1, 6); (6, 8); (2, 9)]).
  reflexivity.
Defined.

(** ** Successful calls are alignments *)

Lemma index_from_unfold {A} `{EqDecision A} (x : A) i seq :
  index_from x i seq =
    match seq !! i with
    | None => None
    | Some y => if decide (y = x) then Some i else index_from x (S i) seq
    end.
Proof.
  unfold index_from. destruct (seq !! i) as [y|] eqn:Hy.
  - rewrite (drop_S _ _ _ Hy). simpl. destruct (decide (y = x)); simpl.
    + f_equal. lia.
    + destruct (list_find _ (drop (S i) seq)) as [[k z]|]; simpl; [|done].
      f_equal. lia.
  - by rewrite drop_ge by (by apply lookup_ge_None).
Qed.

Section Walk.
Context {A : Type} `{EqDecision A}.
Variable tok : list A.

Lemma skip_unmatched_walk c n : ∀ i off ts out,
  (S (length tok) - i ≤ n)%nat →
  skip_unmatched ∅ ∅ tok c i off ts out =
    match index_from c i tok with
    | Some j => Ok (State j (off + (j - i)) ts out)
    | None => Raise IndexError
    end.
Proof.
  induction n as [|n IH]; intros i off ts out Hn;
    rewrite RemapFacts.skip_unmatched_unfold, index_from_unfold.
  - by rewrite lookup_ge_None_2 by lia.
  - destruct (tok !! i) as [x|] eqn:Hx; [|done].
    destruct (decide (c = x)) as [->|Hne].
    + rewrite decide_True by done. by rewrite Nat.sub_diag, Nat.add_0_r.
    + rewrite (decide_False (P := x = c)) by done.
      apply lookup_lt_Some in Hx.
      rewrite decide_False by lia.
      rewrite RemapFacts.check_position_empty. simpl.
      rewrite IH by lia.
      destruct (index_from c (S i) tok) as [j|] eqn:Hj; [|done].
      apply index_from_Some in Hj as (? & _ & _). do 2 f_equal. lia.
Qed.

Lemma for_body_walk c i off ts out :
  for_body ∅ ∅ tok c (State i off ts out) =
    match index_from c i tok with
    | Some j => Ok (State (S j) (off + (j - i)) ts out)
    | None => Raise IndexError
    end.
Proof.
  unfold for_body. rewrite RemapFacts.check_position_empty. simpl.
  rewrite (skip_unmatched_walk c (S (length tok))) by lia.
  by destruct (index_from c i tok).
Qed.

Lemma for_loop_walk_sublist detok : ∀ i off ts out st,
  for_loop ∅ ∅ tok detok (State i off ts out) = Ok st →
  detok `sublist_of` drop i tok.
Proof.
  induction detok as [|c detok IH]; intros i off ts out st; simpl.
  - intros _. apply sublist_nil_l.
  - rewrite for_body_walk.
    destruct (index_from c i tok) as [j|] eqn:Hj; simpl; [|done].
    intros Hloop%IH. apply index_from_Some in Hj as (Hij & Hc & _).
    rewrite <- (take_drop (j - i) (drop i tok)), drop_drop.
    replace (i + (j - i))%nat with j by lia.
    rewrite (drop_S _ _ _ Hc). by apply sublist_inserts_l, sublist_skip.
Qed.

Lemma sublist_walk_for_loop detok : ∀ i off ts out,
  detok `sublist_of` drop i tok →
  ∃ st, for_loop ∅ ∅ tok detok (State i off ts out) = Ok st ∧
        true_start st = ts ∧ remapped_indices st = out.
Proof.
  induction detok as [|c detok IH]; intros i off ts out Hsub; simpl.
  - eauto.
  - rewrite for_body_walk.
    apply sublist_cons_l in Hsub as (k1 & k2 & Hdrop & Hsub).
    destruct (index_from c i tok) as [j|] eqn:Hj; simpl.
    + apply IH. apply index_from_Some in Hj as (Hij & Hc & Hfirst).
      assert (j - i ≤ length k1)%nat as Hle.
      { destruct (decide (j - i ≤ length k1)%nat) as [|Hlt]; [done|].
        destruct Hfirst. apply list_elem_of_lookup. exists (length k1).
        rewrite lookup_take_lt by lia.
        rewrite Hdrop. by apply list_lookup_middle. }
      etrans; [exact Hsub|].
      assert (k2 = drop (length k1 - (j - i)) (drop (S j) tok)) as ->.
      { rewrite drop_drop.
        replace (S j + (length k1 - (j - i)))%nat
          with (i + S (length k1))%nat by lia.
        rewrite <- drop_drop, Hdrop, cons_middle, app_assoc.
        symmetry. apply drop_app_length'. rewrite length_app; simpl; lia. }
      apply sublist_drop.
    + apply index_from_None in Hj. destruct Hj. rewrite Hdrop.
      apply elem_of_app. right. apply list_elem_of_here.
Qed.

Lemma for_loop_walk_exn detok : ∀ i off ts out e,
  for_loop ∅ ∅ tok detok (State i off ts out) = Raise e → e = IndexError.
Proof.
  induction detok as [|c detok IH]; intros i off ts out e; simpl; [done|].
  rewrite for_body_walk.
  destruct (index_from c i tok) as [j|]; simpl; [apply IH | by intros [= <-]].
Qed.
End Walk.

(** X3: a call that returns spans has aligned every character: the
    detokenized sequence is then the tokenized one with some elements
    left out. *)
Theorem remap_success_embeds {A} `{EqDecision A}
    (tokenized detokenized : list A) (spans out : list (Z * Z)) :
  remap_constraint_indices tokenized detokenized spans = Ok out →
  detokenized `sublist_of` tokenized.
Proof.
  unfold remap_constraint_indices, remap_with. intros Hok.
  pose proof (RemapFacts.for_loop_follows (constraint_idx_starts spans)
    (constraint_idx_ends spans) tokenized detokenized initial initial
    eq_refl eq_refl) as Hf.
  destruct (for_loop (constraint_idx_starts spans) _ _ _ _) as [st|];
    simpl in *; [|done].
  destruct Hf as (st0 & Hwalk & _).
  by apply for_loop_walk_sublist in Hwalk.
Qed.

Lemma remap_success_embeds_witness :
  chars "foo bar" `sublist_of` chars "fo@@ o bar".
Proof.
  apply (remap_success_embeds _ _ [(0, 6)] [(0, 3)]). reflexivity.
Defined.

(** X4: without spans the remapper is the alignment test: it returns the
    empty list when the detokenized sequence is the tokenized one with
    some elements left out, and raises [IndexError] otherwise. *)
Theorem remap_without_spans {A} `{EqDecision A}
    (tokenized detokenized : list A) :
  (detokenized `sublist_of` tokenized →
     remap_constraint_indices tokenized detokenized [] = Ok []) ∧
  (¬ detokenized `sublist_of` tokenized →
     remap_constraint_indices tokenized detokenized [] = Raise IndexError).
Proof.
  unfold remap_constraint_indices, remap_with.
  change (constraint_idx_starts []) with (∅ : gmap Z Z).
  change (constraint_idx_ends []) with (∅ : gmap Z Z).
  unfold initial. split.
  - intros Hsub.
    destruct (sublist_walk_for_loop tokenized detokenized 0 0 None [])
      as (st & -> & Hts & Hout); [done|].
    simpl. unfold flush. by rewrite Hts, Hout.
  - intros Hnot.
    destruct (for_loop ∅ ∅ tokenized detokenized _) as [st|e] eqn:Hloop.
    + by apply for_loop_walk_sublist in Hloop.
    + by apply for_loop_walk_exn in Hloop as ->.
Qed.

Lemma remap_without_spans_witness :
  remap_constraint_indices (chars "fo@@ o bar") (chars "foo bar") [] = Ok [] ∧
  remap_constraint_indices (chars "foo bar") (chars "fo@@ o bar") []
    = Raise IndexError.
Proof.
  split.
  - apply remap_without_spans. simpl.
    repeat first [apply sublist_skip | apply sublist_cons | apply sublist_nil].
  - apply remap_without_spans. intros Hsub%sublist_length. simpl in Hsub. lia.
Defined.

(** * Further properties of the merge table *)

Lemma first_occurrence_exists {K} `{EqDecision K} (keys : list K) key :
  key ∈ keys →
  ∃ i, keys !! i = Some key ∧ ∀ k, (k < i)%nat → keys !! k ≠ Some key.
Proof.
  intros Hin.
  destruct (list_find (λ y, y = key) keys) as [[i y]|] eqn:Hfind.
  - apply list_find_Some in Hfind as (Hi & -> & Hbefore).
    exists i. split; [done|]. intros k Hk Hkey. by eapply Hbefore.
  - apply list_find_None in Hfind.
    by eapply (Forall_forall (λ y, y ≠ key)) in Hin.
Qed.

Lemma init_lookup_Some codes sep ign self key i :
  init codes sep ign = Ok self →
  bpe_codes self !! key = Some i →
  parse_codes codes !! i = Some key ∧
  ∀ k, (k < i)%nat → parse_codes codes !! k ≠ Some key.
Proof.
  intros Hinit Hlook.
  assert (key ∈ parse_codes codes) as Hin.
  { rewrite init_bpe_codes in Hinit. injection Hinit as <-. simpl in Hlook.
    apply elem_of_list_to_map_2 in Hlook.
    apply list_elem_of_lookup in Hlook as [j Hj].
    rewrite list_lookup_imap in Hj.
    destruct (parse_codes codes !! j) eqn:Hp; simplify_eq/=.
    by eapply list_elem_of_lookup_2. }
  destruct (first_occurrence_exists _ _ Hin) as (i0 & Hi0 & Hfirst).
  destruct (init_keeps_first codes sep ign key i0 Hi0 Hfirst)
    as (self' & Hinit' & Hlook').
  rewrite Hinit in Hinit'. injection Hinit' as <-.
  rewrite Hlook in Hlook'. by injection Hlook' as <-.
Qed.

(** X5: in a constructed merge table, a tuple of fields is a key exactly
    when some declaration splits into it; its priority is then the
    position of the earliest such declaration, so two different keys never
    have the same priority (there are no ties for [min] to break). *)
Theorem init_table_has_no_ties (codes : list string) (separator : string)
    (ignore : option (list string)) (self : BPE) :
  init codes separator ignore = Ok self →
  (∀ key, bpe_codes self !! key = None ↔ key ∉ parse_codes codes) ∧
  (∀ key i, bpe_codes self !! key = Some i →
     parse_codes codes !! i = Some key) ∧
  (∀ key key' i, bpe_codes self !! key = Some i →
     bpe_codes self !! key' = Some i → key = key').
Proof.
  intros Hinit. split; [|split].
  - intros key. split.
    + intros Hnone Hin.
      destruct (first_occurrence_exists _ _ Hin) as (i & Hi & Hfirst).
      destruct (init_keeps_first codes separator ignore key i Hi Hfirst)
        as (self' & Hinit' & Hlook).
      rewrite Hinit in Hinit'. injection Hinit' as <-.
      by rewrite Hnone in Hlook.
    + intros Hnot. apply eq_None_not_Some. intros [i Hlook].
      apply (init_lookup_Some _ _ _ _ _ _ Hinit) in Hlook as [Hi _].
      by apply list_elem_of_lookup_2 in Hi.
  - intros key i Hlook.
    by apply (init_lookup_Some _ _ _ _ _ _ Hinit) in Hlook as [? _].
  - intros key key' i Hk Hk'.
    apply (init_lookup_Some _ _ _ _ _ _ Hinit) in Hk as [Hk _].
    apply (init_lookup_Some _ _ _ _ _ _ Hinit) in Hk' as [Hk' _].
    congruence.
Qed.

Lemma init_table_has_no_ties_witness :
  ∃ self, init ["a b"; "b c"; "a  b"]%string "@@"%string None = Ok self ∧
  (∀ key, bpe_codes self !! key = None ↔
          key ∉ parse_codes ["a b"; "b c"; "a  b"]%string) ∧
  (∀ key i, bpe_codes self !! key = Some i →
     parse_codes ["a b"; "b c"; "a  b"]%string !! i = Some key) ∧
  (∀ key key' i, bpe_codes self !! key = Some i →
     bpe_codes self !! key' = Some i → key = key').
Proof.
  eexists. split; [reflexivity|].
  apply (init_table_has_no_ties _ "@@"%string None). reflexivity.
Defined.

(** * Further properties of the segmenter *)

Lemma priority_lt_None a : priority_lt a None = false → a = None.
Proof. by destruct a. Qed.

(** X6: the pair selected by [min] does not depend on the order in which
    the set of pairs is iterated. With a table without ties, if the pair
    selected from one listing is in the table, every listing of the same
    pairs selects it; if it is not in the table, no listing selects a pair
    of the table (the loop stops either way). *)
Theorem min_pair_ignores_order (bpe_codes : table)
    (pairs pairs' : list (string * string)) (bigram : string * string) :
  (∀ key key' i, bpe_codes !! key = Some i → bpe_codes !! key' = Some i →
     key = key') →
  pairs ≡ₚ pairs' →
  min_pair bpe_codes pairs = Ok bigram →
  ∃ bigram', min_pair bpe_codes pairs' = Ok bigram' ∧
    (is_Some (priority bpe_codes bigram) → bigram' = bigram) ∧
    (priority bpe_codes bigram = None → priority bpe_codes bigram' = None).
Proof.
  intros Hties Hperm Hmin.
  destruct (min_pair bpe_codes pairs') as [bigram'|e] eqn:Hmin'.
  2:{ destruct pairs' as [|p rest]; [|done].
      apply Permutation_nil_r in Hperm as ->. done. }
  exists bigram'. split; [done|].
  pose proof (min_pair_elem _ _ _ Hmin) as Hin.
  pose proof (min_pair_elem _ _ _ Hmin') as Hin'.
  pose proof (min_pair_least _ _ _ Hmin bigram') as Hle.
  pose proof (min_pair_least _ _ _ Hmin' bigram) as Hle'.
  rewrite Hperm in Hle. rewrite <- Hperm in Hle'.
  specialize (Hle Hin'). specialize (Hle' Hin). split.
  - intros [r Hr]. rewrite Hr in Hle, Hle'.
    destruct (priority bpe_codes bigram') as [r'|] eqn:Hr'; [|done].
    simpl in Hle, Hle'. apply Nat.ltb_ge in Hle, Hle'.
    assert (r' = r) as -> by lia.
    unfold priority in Hr, Hr'.
    pose proof (Hties _ _ _ Hr Hr') as Heq.
    destruct bigram, bigram'. simpl in Heq. by simplify_eq.
  - intros Hnone. rewrite Hnone in Hle. by apply priority_lt_None.
Qed.

Lemma min_pair_ignores_order_witness :
  ∃ bigram', min_pair table_a_b [("b", "c"); ("a", "b")]%string = Ok bigram' ∧
    (is_Some (priority table_a_b ("a", "b")%string) →
       bigram' = ("a", "b")%string) ∧
    (priority table_a_b ("a", "b")%string = None →
       priority table_a_b bigram' = None).
Proof.
  apply (min_pair_ignores_order table_a_b [("a", "b"); ("b", "c")]%string).
  - unfold table_a_b.
    intros key key' i [<- _]%lookup_singleton_Some [<- _]%lookup_singleton_Some.
    done.
  - apply Permutation_swap.
  - reflexivity.
Defined.

(** X7: a cache passed along from call to call is transparent: after a
    call of [encode] that returned, a second call for the same word with
    the cache the first one left returns the same word from the cache and
    leaves the cache as it is. *)
Theorem encode_twice_hits_cache (orig : string) (bpe_codes : table)
    (cache : option (gmap string (list string))) (first : encoded) :
  encode orig bpe_codes cache = Ok first →
  encode orig bpe_codes (Some (enc_cache first)) =
    Ok (Encoded (enc_word first) (enc_cache first) FromCache).
Proof.
  unfold encode. simpl.
  destruct (default ∅ cache !! orig) as [word|] eqn:Hlook.
  - intros [= <-]. simpl. by rewrite Hlook.
  - destruct (encode_word orig bpe_codes) as [word|]; simpl; [|done].
    intros [= <-]. simpl. by rewrite lookup_insert_eq.
Qed.

Lemma encode_twice_hits_cache_witness :
  encode "abab" table_a_b (Some {[ "abab"%string := ["ab"; "ab"]%string ]}) =
    Ok (Encoded ["ab"; "ab"]%string {[ "abab"%string := ["ab"; "ab"]%string ]}
          FromCache).
Proof.
  exact (encode_twice_hits_cache "abab" table_a_b None
           (Encoded ["ab"; "ab"]%string
              {[ "abab"%string := ["ab"; "ab"]%string ]} Computed) eq_refl).
Defined.

(** ** Strings as character lists *)

Lemma chars_app a b : chars (a +:+ b) = chars a ++ chars b.
Proof. induction a as [|c a IH]; simpl; [done|]. by rewrite IH. Qed.

Lemma chars_inj a b : chars a = chars b → a = b.
Proof.
  intros Heq. rewrite <- (string_of_list_ascii_of_string a),
    <- (string_of_list_ascii_of_string b). unfold chars in Heq. by rewrite Heq.
Qed.

Lemma string_app_assoc a b c : (a +:+ b) +:+ c = a +:+ (b +:+ c).
Proof. apply chars_inj. by rewrite !chars_app, app_assoc. Qed.

Lemma string_app_nil_r a : a +:+ EmptyString = a.
Proof. apply chars_inj. by rewrite chars_app, app_nil_r. Qed.

Lemma string_app_inv_tail a b c : a +:+ c = b +:+ c → a = b.
Proof.
  intros Heq. apply chars_inj. apply (f_equal chars) in Heq.
  rewrite !chars_app in Heq. by apply app_inv_tail in Heq.
Qed.

Lemma string_length_app a b :
  String.length (a +:+ b) = (String.length a + String.length b)%nat.
Proof. induction a as [|c a IH]; simpl; [done|]. by rewrite IH. Qed.

Lemma spell_app w1 w2 : spell (w1 ++ w2) = spell w1 +:+ spell w2.
Proof.
  induction w1 as [|x w1 IH]; simpl; [done|].
  by rewrite IH, string_app_assoc.
Qed.

Lemma spell_chars orig :
  spell ((λ c, String c EmptyString) <$> chars orig) = orig.
Proof.
  induction orig as [|c orig IH]; [done|].
  change (String c (spell ((λ c, String c EmptyString) <$> chars orig))
          = String c orig). by rewrite IH.
Qed.

(** ** The merge pass keeps the spelling and the marker at the end *)

Lemma spell_cons x w : spell (x :: w) = x +:+ spell w.
Proof. done. Qed.

Lemma merge_every_occurrence_spell first second n : ∀ word,
  (length word ≤ n)%nat →
  spell (merge_every_occurrence first second word) = spell word.
Proof.
  induction n as [|n IH]; intros [|x [|y rest]] Hn; try done;
    simpl in Hn; try lia.
  cbn [merge_every_occurrence]. case_decide as Hxy.
  - destruct Hxy as [-> ->].
    rewrite (spell_cons (first +:+ second)), (spell_cons first),
      (spell_cons second), string_app_assoc.
    do 2 f_equal. apply IH. lia.
  - rewrite !(spell_cons x). f_equal. apply (IH (y :: rest)). simpl. lia.
Qed.

Lemma merge_every_occurrence_last first second n : ∀ word final,
  (length word ≤ n)%nat →
  ∃ word' p,
    merge_every_occurrence first second (word ++ [final]) =
      word' ++ [p +:+ final].
Proof.
  induction n as [|n IH]; intros [|x [|y rest]] final Hn; simpl in *;
    try lia.
  - by exists [], EmptyString.
  - by exists [], EmptyString.
  - case_decide as Hxy.
    + destruct Hxy as [-> ->]. by exists [], first.
    + by exists [x], EmptyString.
  - case_decide as Hxy.
    + destruct (IH rest final) as (word' & p & Hm); [lia|].
      rewrite Hm. by exists ((first +:+ second) :: word'), p.
    + destruct (IH (y :: rest) final) as (word' & p & Hm); [simpl; lia|].
      simpl in Hm. rewrite Hm. by exists (x :: word'), p.
Qed.

(** A word whose last symbol ends with the end-of-word marker. *)
Definition marked (word : list string) : Prop :=
  ∃ pre y, word = pre ++ [y +:+ end_of_word].

Lemma merge_every_occurrence_marked first second word :
  marked word → marked (merge_every_occurrence first second word).
Proof.
  intros (pre & y & ->).
  destruct (merge_every_occurrence_last first second (length pre) pre
              (y +:+ end_of_word)) as (word' & p & ->); [done|].
  exists word', (p +:+ y). by rewrite string_app_assoc.
Qed.

Lemma marked_length word : marked word → (1 ≤ length word)%nat.
Proof. intros (pre & y & ->). rewrite length_app. simpl. lia. Qed.

Lemma encode_loop_keeps bpe_codes n : ∀ word,
  (length word ≤ n)%nat → (2 ≤ length word)%nat → marked word →
  ∃ word', encode_loop bpe_codes word = Ok word' ∧
           spell word' = spell word ∧ marked word'.
Proof.
  induction n as [|n IH]; intros word Hn H2 Hmarked; [lia|].
  rewrite encode_loop_unfold.
  destruct word as [|x [|y rest]]; simpl in H2; try lia.
  cbn [get_pairs pairs_after min_pair]. simpl.
  set (bigram := foldl _ _ _).
  assert (min_pair bpe_codes (pairs_after x (y :: rest)) = Ok bigram)
    as Hmin by done.
  destruct (bpe_codes !! [bigram.1; bigram.2]) as [rank|]; [|by eauto].
  rewrite merge_pass_spec.
  set (new_word := merge_every_occurrence bigram.1 bigram.2 (x :: y :: rest)).
  assert (spell new_word = spell (x :: y :: rest)) as Hspell
    by by apply (merge_every_occurrence_spell _ _ (length (x :: y :: rest))).
  assert (marked new_word) as Hnew
    by by apply merge_every_occurrence_marked.
  destruct (decide (length new_word = 1%nat)) as [|Hlen]; [by eauto|].
  assert (length new_word < length (x :: y :: rest))%nat as Hshort.
  { apply min_pair_elem in Hmin. destruct bigram as [b1 b2].
    by apply merge_every_occurrence_shorter. }
  pose proof (marked_length _ Hnew).
  destruct (IH new_word) as (word' & Hloop & Hspell' & Hmarked');
    [simpl in *; lia | lia | done |].
  exists word'. split; [done|]. split; [by etrans|done].
Qed.

Lemma prefix_head_ne a s1 b s2 :
  a ≠ b → String.prefix (String a s1) (String b s2) = false.
Proof.
  intros Hne.
  change (String.prefix (String a s1) (String b s2))
    with (if ascii_dec a b then String.prefix s1 s2 else false).
  by destruct (ascii_dec a b).
Qed.

Lemma remove_from_keep old c rest :
  String.prefix old (String c rest) = false →
  remove_from old 0 (String c rest) = String c (remove_from old 0 rest).
Proof.
  intros Hp.
  change (remove_from old 0 (String c rest))
    with (if String.prefix old (String c rest)
          then remove_from old (String.length old - 1) rest
          else String c (remove_from old 0 rest)).
  by rewrite Hp.
Qed.

Lemma remove_all_marker y :
  "<"%char ∉ chars y → remove_all end_of_word (y +:+ end_of_word) = y.
Proof.
  unfold remove_all, end_of_word.
  induction y as [|c y IH]; intros Hy; [done|].
  simpl in Hy. apply not_elem_of_cons in Hy as [Hc Hy].
  change (String c y +:+ "</w>") with (String c (y +:+ "</w>")).
  rewrite remove_from_keep by by apply prefix_head_ne.
  f_equal. by apply IH.
Qed.

Lemma substring_app_skip y n m :
  substring (String.length y) n (y +:+ m) = substring 0 n m.
Proof. induction y as [|c y IH]; [done|]. simpl. apply IH. Qed.

Lemma endswith_marker y : endswith (y +:+ end_of_word) end_of_word = true.
Proof.
  unfold endswith. rewrite string_length_app.
  rewrite (proj2 (Nat.leb_le _ _)) by lia. simpl andb.
  rewrite Nat.add_sub. by rewrite substring_app_skip.
Qed.

Lemma strip_end_of_word_marked pre y :
  strip_end_of_word (pre ++ [y +:+ end_of_word]) =
    Ok (if decide (y = EmptyString) then pre
        else pre ++ [remove_all end_of_word (y +:+ end_of_word)]).
Proof.
  unfold strip_end_of_word. rewrite last_snoc, removelast_last.
  destruct (decide (y = EmptyString)) as [->|Hy].
  - by rewrite decide_True.
  - rewrite decide_False.
    + by rewrite endswith_marker.
    + intros Heq. apply Hy.
      by apply (string_app_inv_tail y EmptyString end_of_word).
Qed.

Lemma encode_word_spells_symbols (orig : string) (bpe_codes : table) :
  orig ≠ EmptyString →
  ∃ word, encode_word orig bpe_codes = Ok word ∧ word ≠ [] ∧
          ("<"%char ∉ chars orig → spell word = orig).
Proof.
  intros Horig. unfold encode_word.
  destruct (encode_loop_keeps bpe_codes (length (word_of orig)) (word_of orig))
    as (loop & -> & Hspell & (pre & y & ->));
    [done| |by exists ((λ c, String c EmptyString) <$> chars orig), EmptyString|].
  { unfold word_of. rewrite length_app, length_fmap.
    destruct orig; [done|]. simpl. lia. }
  simpl. rewrite strip_end_of_word_marked. eexists; split; [done|].
  unfold word_of in Hspell.
  rewrite !spell_app, spell_chars in Hspell. simpl in Hspell.
  rewrite !string_app_nil_r, <- string_app_assoc in Hspell.
  apply string_app_inv_tail in Hspell.
  destruct (decide (y = EmptyString)) as [->|Hy].
  - rewrite string_app_nil_r in Hspell. split; [|done].
    intros ->. by simpl in Hspell.
  - split; [by destruct pre|]. intros Hlt.
    rewrite remove_all_marker.
    + rewrite spell_app. simpl. by rewrite string_app_nil_r.
    + intros Hin. apply Hlt. rewrite <- Hspell, chars_app.
      apply elem_of_app. by right.
Qed.

(** X8: segmenting a word. The empty word raises [ValueError] ([min] of no
    pair). A non-empty word always yields a non-empty tuple of symbols,
    and when the word has no "<" the symbols spell the word: segmentation
    neither loses, adds nor reorders characters. *)
Theorem encode_word_spells_the_word (orig : string) (bpe_codes : table) :
  (orig = EmptyString → encode_word orig bpe_codes = Raise ValueError) ∧
  (orig ≠ EmptyString →
     ∃ word, encode_word orig bpe_codes = Ok word ∧ word ≠ [] ∧
             ("<"%char ∉ chars orig → spell word = orig)).
Proof.
  split; [by intros ->|]. apply encode_word_spells_symbols.
Qed.

Lemma encode_word_spells_the_word_witness :
  ∃ word, encode_word "abab" table_a_b = Ok word ∧ word ≠ [] ∧
          ("<"%char ∉ chars "abab" → spell word = "abab"%string).
Proof. by apply (encode_word_spells_the_word "abab" table_a_b). Defined.

(** ** Splitting on whitespace *)

(** A word as [split] produces them: not empty, without whitespace. *)
Definition wordlike (w : string) : Prop :=
  w ≠ EmptyString ∧ ∀ c, c ∈ chars w → isspace c = false.

Lemma split_from_wordlike s : ∀ cur,
  (∀ c, c ∈ chars cur → isspace c = false) →
  Forall wordlike (split_from cur s).
Proof.
  induction s as [|c s IH]; intros cur Hcur; simpl.
  - destruct (decide (cur = EmptyString)); by repeat constructor.
  - destruct (isspace c) eqn:Hc.
    + destruct (decide (cur = EmptyString)).
      * apply IH. by intros ? ?%elem_of_nil.
      * constructor; [done|]. apply IH. by intros ? ?%elem_of_nil.
    + apply IH. intros c'. rewrite chars_app. simpl.
      rewrite elem_of_app, list_elem_of_singleton. intros [?| ->]; auto.
Qed.

Lemma split_from_word w : ∀ cur rest,
  (∀ c, c ∈ chars w → isspace c = false) →
  split_from cur (w +:+ rest) = split_from (cur +:+ w) rest.
Proof.
  induction w as [|c w IH]; intros cur rest Hw.
  - by rewrite string_app_nil_r.
  - change (String c w +:+ rest) with (String c (w +:+ rest)).
    cbn [split_from]. rewrite Hw by (simpl; apply list_elem_of_here).
    rewrite IH.
    + f_equal. rewrite string_app_assoc. done.
    + intros c' Hc'. apply Hw. simpl. by apply list_elem_of_further.
Qed.

(** X9: [split] returns only words that are not empty and contain no
    whitespace, and it undoes [' '.join]: a list of such words, joined by
    single spaces and split again, is the list itself. *)
Theorem split_join_round_trip (s : string) (words : list string) :
  Forall wordlike (split s) ∧
  (Forall wordlike words → split (join " " words) = words).
Proof.
  split; [apply split_from_wordlike; by intros ? ?%elem_of_nil|].
  induction 1 as [|w ws [Hne Hw] Hws IH]; [done|].
  unfold split in *. cbn [join]. destruct ws as [|w2 ws].
  - rewrite <- (string_app_nil_r w) at 1. rewrite split_from_word by done.
    simpl. by rewrite decide_False.
  - rewrite split_from_word by done.
    change (EmptyString +:+ w) with w.
    change (" " +:+ join " " (w2 :: ws))
      with (String " " (join " " (w2 :: ws))).
    cbn [split_from]. change (isspace " ") with true. cbv iota.
    rewrite decide_False by done. by rewrite IH.
Qed.

Lemma split_join_round_trip_witness :
  split (join " " ["fo@@"; "o"; "bar"]%string) = ["fo@@"; "o"; "bar"]%string.
Proof.
  apply (split_join_round_trip EmptyString).
  repeat constructor; try done;
    intros c Hc; simpl in Hc;
    repeat (apply elem_of_cons in Hc as [->|Hc]; [done|]);
    by apply elem_of_nil in Hc.
Defined.

(** ** The segmenter never fails *)

Lemma segment_word_total self word :
  word ≠ EmptyString → ∃ r, segment_word self word = Ok r.
Proof.
  intros Hword. unfold segment_word.
  destruct (ignored self word); [by eauto|].
  unfold encode. simpl. rewrite lookup_empty.
  destruct (encode_word_spells_symbols word (bpe_codes self) Hword)
    as (w & -> & Hne & _). simpl.
  destruct (last w) as [final|] eqn:Hlast; [by eauto|].
  by apply last_None in Hlast.
Qed.

Lemma segment_total self sentence : ∃ out, segment self sentence = Ok out.
Proof.
  unfold segment.
  assert (Forall wordlike (split sentence)) as Hwords
    by (apply split_from_wordlike; by intros ? ?%elem_of_nil).
  assert (∃ r, segment_words self (split sentence) = Ok r) as [r ->];
    [|by eauto].
  induction Hwords as [|w ws [Hne _] _ [r IH]]; simpl; [by eauto|].
  destruct (segment_word_total self w Hne) as [rw ->]. simpl.
  rewrite IH. simpl. eauto.
Qed.



(** * The span annotation converter *)

(** The text after one more token (lines 96-99). *)
Definition emit_text (out token : string) : string :=
  if decide (len out = 0) then token else out +:+ " " +:+ token.


(** The untagged tokens that directly follow a token tagged with an
    identifier other than [None]; [open] tells whether the token before
    the list is tagged so. *)
Fixpoint closings {T} (open : bool)
    (anns : list (option (list (option T)))) : nat :=
  match anns with
  | [] => 0
  | Some ann :: rest =>
      closings (match ann with Some _ :: _ => true | _ => false end) rest
  | None :: rest => (if open then 1 else 0) + closings false rest
  end.

Lemma len_0 s : len s = 0 ↔ s = EmptyString.
Proof. unfold len. destruct s; simpl; split; intros; try done; lia. Qed.

Lemma len_app a b : len (a +:+ b) = len a + len b.
Proof. unfold len. rewrite string_length_app. lia. Qed.

Lemma len_nonneg s : 0 ≤ len s.
Proof. unfold len. lia. Qed.



Lemma emit_text_len out token : len out ≤ len (emit_text out token) ∧
  (0 < len out → len out + 1 ≤ len (emit_text out token)).
Proof.
  unfold emit_text. pose proof (len_nonneg token).
  case_decide as H0; [lia|]. rewrite !len_app.
  change (len " ") with 1. lia.
Qed.

Section ConvertFacts.
Context {T : Type} `{EqDecision T}.
Implicit Types (st : Spans.state (T:=T)) (ann : option (list (option T))).

(** What one pass through lines 80-94 does to the state. *)
Lemma track_empty st : Spans.track (Some []) st = Raise IndexError.
Proof. done. Qed.

Lemma track_tagged id rest st :
  Spans.track (Some (id :: rest)) st =
  Ok (if decide (id ≠ Spans.constraint_id st)
      then Spans.State (Spans.span_annotations st) (Spans.output_sequence st)
             (Some (id, if decide (len (Spans.output_sequence st) > 0)
                        then len (Spans.output_sequence st) + 1
                        else len (Spans.output_sequence st)))
      else st).
Proof. unfold Spans.track. simpl. by case_decide. Qed.

Lemma track_untagged st :
  Spans.track None st =
  Ok (match Spans.open_constraint st with
      | Some (Some _, constraint_start_idx) =>
          Spans.State
            (Spans.span_annotations st ++
               [(constraint_start_idx, len (Spans.output_sequence st))])
            (Spans.output_sequence st) None
      | _ => st
      end).
Proof.
  unfold Spans.track. by destruct (Spans.open_constraint st) as [[[]]|].
Qed.


Lemma emit_output token st :
  Spans.output_sequence (Spans.emit token st)
  = emit_text (Spans.output_sequence st) token.
Proof. done. Qed.




End ConvertFacts.


Section ConvertSpans.
Context {T : Type} `{EqDecision T}.
Implicit Types (st : Spans.state (T:=T)) (ann : option (list (option T))).

(** The offset below which the recorded spans lie: the start of the open
    constraint, or the length of the text when none is open. *)
Definition bound st : Z :=
  match Spans.open_constraint st with
  | Some (_, constraint_start_idx) => constraint_start_idx
  | None => len (Spans.output_sequence st)
  end.

Definition in_order st : Prop :=
  ascending 0 (Spans.span_annotations st) (bound st) ∧
  bound st ≤ len (Spans.output_sequence st).

Lemma in_order_emit token st :
  ascending 0 (Spans.span_annotations st) (bound st) →
  bound st ≤ len (Spans.output_sequence st) ∨
    (0 < len (Spans.output_sequence st) ∧
     bound st = len (Spans.output_sequence st) + 1) →
  in_order (Spans.emit token st).
Proof.
  intros Hasc Hbound.
  pose proof (emit_text_len (Spans.output_sequence st) token) as [Hle Hlt].
  unfold in_order, bound in *. rewrite emit_output.
  destruct st as [spans out [[id s]|]]; simpl in *.
  - split; [done|]. lia.
  - split; [|lia]. eapply ascending_weaken; [done|lia].
Qed.

Lemma loop_in_order pairs : ∀ st st',
  in_order st → Spans.loop pairs st = Ok st' → in_order st'.
Proof.
  induction pairs as [|[token ann] pairs IH]; intros st st' [Hasc Hle];
    cbn [Spans.loop].
  - by intros [= <-].
  - destruct ann as [[|id rest]|].
    + done.
    + rewrite track_tagged. apply IH. apply in_order_emit.
      * case_decide; [|done]. unfold bound; simpl.
        eapply ascending_weaken; [done|]. case_decide; lia.
      * case_decide; [|by left]. unfold bound; simpl. case_decide; lia.
    + rewrite track_untagged. apply IH.
      unfold bound in Hasc, Hle.
      destruct (Spans.open_constraint st) as [[[id|] s]|] eqn:Hopen.
      * apply in_order_emit; unfold bound; simpl; [|lia].
        by apply ascending_snoc.
      * apply in_order_emit; unfold bound; rewrite Hopen; [done|by left].
      * apply in_order_emit; unfold bound; rewrite Hopen; [done|by left].
Qed.

(** X12: the spans returned by the converter are ranges of the returned
    text in ascending order: each start is at most its end, each end at
    most the next start, and all lie between 0 and the length of the
    text. *)
Theorem convert_returns_ascending_ranges (token_sequence : list string)
    (constraint_annotations : list (option (list (option T))))
    (spans : list (Z * Z)) (text : string) :
  Spans.convert_token_annotations_to_spans token_sequence
    constraint_annotations = Ok (spans, text) →
  ascending 0 spans (len text).
Proof.
  unfold Spans.convert_token_annotations_to_spans.
  case_decide; [|done].
  destruct (Spans.loop _ _) as [st'|] eqn:Hloop; [|done].
  intros [= <- <-].
  apply loop_in_order in Hloop as [Hasc Hle]; [|by split].
  by eapply ascending_weaken.
Qed.

Definition is_open st : bool :=
  match Spans.constraint_id st with Some _ => true | None => false end.

Lemma loop_closings pairs : ∀ st st',
  Spans.loop pairs st = Ok st' →
  length (Spans.span_annotations st') =
    (length (Spans.span_annotations st) + closings (is_open st) pairs.*2)%nat.
Proof.
  induction pairs as [|[token ann] pairs IH]; intros st st';
    cbn [Spans.loop].
  - intros [= <-]. simpl. lia.
  - destruct ann as [[|id rest]|].
    + done.
    + rewrite track_tagged. intros Hloop%IH. rewrite Hloop.
      cbn [fmap list_fmap snd closings]. case_decide as Hid.
      * unfold is_open, Spans.constraint_id. simpl. by destruct id.
      * assert (is_open (Spans.emit token st)
                = match id with Some _ => true | None => false end) as ->
          by (unfold is_open; by rewrite Hid). done.
    + rewrite track_untagged. intros Hloop%IH. rewrite Hloop.
      cbn [fmap list_fmap snd closings]. unfold is_open, Spans.constraint_id.
      destruct st as [spans out [[[id|] s]|]]; simpl; [|lia|lia].
      rewrite length_app. simpl. lia.
Qed.

(** X13: the converter returns one span for each untagged token that
    directly follows a token tagged with an identifier other than [None],
    and no other: a tagged run that ends the sequence, or that is directly
    followed by a run with another identifier, gives no span, and neither
    does a run whose identifier is [None]. *)
Theorem convert_span_per_closing (token_sequence : list string)
    (constraint_annotations : list (option (list (option T))))
    (spans : list (Z * Z)) (text : string) :
  Spans.convert_token_annotations_to_spans token_sequence
    constraint_annotations = Ok (spans, text) →
  length spans = closings false constraint_annotations.
Proof.
  unfold Spans.convert_token_annotations_to_spans.
  case_decide as Hlen; [|done].
  destruct (Spans.loop _ _) as [st'|] eqn:Hloop; [|done].
  intros [= <- <-]. apply loop_closings in Hloop.
  by rewrite snd_zip in Hloop by lia.
Qed.

End ConvertSpans.

Lemma convert_returns_ascending_ranges_witness :
  ascending 0 [(4, 7); (12, 15)] (len "foo bar baz qux end").
Proof.
  apply (convert_returns_ascending_ranges
           ["foo"; "bar"; "baz"; "qux"; "end"]%string
           [None; Some [Some 1%nat]; None; Some [Some 2%nat]; None]).
  reflexivity.
Defined.

Lemma convert_span_per_closing_witness :
  length [(4, 7)] =
  closings false
    [Some [Some 1%nat]; Some [Some 2%nat]; None; Some [None]; None].
Proof.
  apply (convert_span_per_closing
           ["foo"; "bar"; "baz"; "qux"; "end"]%string
           [Some [Some 1%nat]; Some [Some 2%nat]; None; Some [None]; None]
           [(4, 7)] "foo bar baz qux end").
  reflexivity.
Defined.

(** ** What a span delimits *)

Lemma join_snoc sep l t :
  l ≠ [] → join sep (l ++ [t]) = join sep l +:+ sep +:+ t.
Proof.
  induction l as [|x [|y l] IH]; intros Hl; [done|done|].
  change (join sep ((x :: y :: l) ++ [t]))
    with (x +:+ sep +:+ join sep ((y :: l) ++ [t])).
  rewrite IH by done.
  change (join sep (x :: y :: l)) with (x +:+ sep +:+ join sep (y :: l)).
  by rewrite !string_app_assoc.
Qed.

Lemma join_nonempty sep l :
  l ≠ [] → Forall (λ t, t ≠ EmptyString) l → join sep l ≠ EmptyString.
Proof.
  destruct l as [|x l]; [done|]. intros _ Hl.
  apply Forall_cons in Hl as [Hx _].
  destruct x; [done|]. by destruct l.
Qed.

Lemma emit_text_snoc l t :
  Forall (λ t, t ≠ EmptyString) l →
  emit_text (join " " l) t = join " " (l ++ [t]).
Proof.
  intros Hl. unfold emit_text. destruct (decide (l = [])) as [->|Hne].
  - done.
  - rewrite decide_False by (rewrite len_0; by apply join_nonempty).
    by rewrite join_snoc.
Qed.

(** The offset at which a token starts that follows the tokens [pre]. *)
Definition starts_after (pre : list string) : Z :=
  match pre with
  | [] => 0
  | _ :: _ => len (join " " pre) + 1
  end.

Section ConvertRuns.
Context {T : Type} `{EqDecision T}.
Implicit Types (st : Spans.state (T:=T)) (ann : option (list (option T))).
Implicit Types
  (pairs pre run post : list (string * option (list (option T)))).

(** The token is tagged with the identifier [id], a value other than
    [None]. *)
Definition tagged (id : T) (p : string * option (list (option T))) : Prop :=
  ∃ rest, p.2 = Some (Some id :: rest).

(** The range [s, e) is the text of a run of tokens tagged with one
    identifier: the run is not empty, the token before it is not tagged
    with that identifier, the token after it is untagged, [s] is where its
    first token starts and [e] where its last token ends. *)
Definition covers pairs (s e : Z) : Prop :=
  ∃ pre run post id,
    pairs = pre ++ run ++ post ∧ run ≠ [] ∧ Forall (tagged id) run ∧
    (∀ p, last pre = Some p → ¬ tagged id p) ∧
    (∃ token, head post = Some (token, None)) ∧
    s = starts_after pre.*1 ∧ e = len (join " " (pre ++ run).*1).

Definition run_open pairs (id : T) (s : Z) : Prop :=
  ∃ pre run,
    pairs = pre ++ run ∧ run ≠ [] ∧ Forall (tagged id) run ∧
    (∀ p, last pre = Some p → ¬ tagged id p) ∧
    s = starts_after pre.*1.

Definition tracks pairs st : Prop :=
  Spans.output_sequence st = join " " pairs.*1 ∧
  (∀ s e, (s, e) ∈ Spans.span_annotations st → covers pairs s e) ∧
  match Spans.open_constraint st with
  | Some (Some id, s) => run_open pairs id s
  | _ => ∀ p id, last pairs = Some p → ¬ tagged id p
  end.

Lemma covers_app pairs more s e :
  covers pairs s e → covers (pairs ++ more) s e.
Proof.
  intros (pre & run & post & id & -> & Hrun & Htag & Hpre & [t Hpost] & Hs & He).
  exists pre, run, (post ++ more), id. rewrite <- !app_assoc.
  repeat split; try done. exists t. by rewrite head_app, Hpost.
Qed.

Lemma tracks_emit pairs st token ann :
  Forall (λ t, t ≠ EmptyString) pairs.*1 →
  Spans.output_sequence st = join " " pairs.*1 →
  (∀ s e, (s, e) ∈ Spans.span_annotations st →
     covers (pairs ++ [(token, ann)]) s e) →
  match Spans.open_constraint st with
  | Some (Some id, s) => run_open (pairs ++ [(token, ann)]) id s
  | _ => ∀ id, ¬ tagged id (token, ann)
  end →
  tracks (pairs ++ [(token, ann)]) (Spans.emit token st).
Proof.
  intros Hne Hout Hspans Hopen. split; [|split].
  - rewrite emit_output, Hout, fmap_app. by apply emit_text_snoc.
  - done.
  - change (Spans.open_constraint (Spans.emit token st))
      with (Spans.open_constraint st).
    destruct (Spans.open_constraint st) as [[[id|] s]|]; [done| |];
      intros p id'; rewrite last_snoc; intros [= <-]; apply Hopen.
Qed.

Lemma start_is_starts_after pairs :
  Forall (λ t, t ≠ EmptyString) pairs.*1 →
  (if decide (len (join " " pairs.*1) > 0)
   then len (join " " pairs.*1) + 1 else len (join " " pairs.*1))
  = starts_after pairs.*1.
Proof.
  intros Hne. destruct pairs as [|p pairs]; [done|].
  assert (join " " (p :: pairs).*1 ≠ EmptyString) as Hj
    by by apply join_nonempty.
  rewrite <- len_0 in Hj.
  pose proof (len_nonneg (join " " (p :: pairs).*1)).
  rewrite decide_True by lia. done.
Qed.

Lemma loop_tracks more : ∀ pairs st st',
  Forall (λ t, t ≠ EmptyString) (pairs ++ more).*1 →
  tracks pairs st → Spans.loop more st = Ok st' →
  tracks (pairs ++ more) st'.
Proof.
  induction more as [|[token ann] more IH];
    intros pairs st st' Hne (Hout & Hspans & Hopen); cbn [Spans.loop].
  - intros [= <-]. by rewrite app_nil_r.
  - assert (Forall (λ t, t ≠ EmptyString) pairs.*1) as Hpairs.
    { rewrite fmap_app in Hne. by apply Forall_app in Hne as [? _]. }
    rewrite (cons_middle (token, ann) pairs more) in Hne |- *.
    rewrite (assoc_L (++) pairs [(token, ann)] more) in Hne |- *.
    assert (∀ s e, (s, e) ∈ Spans.span_annotations st →
              covers (pairs ++ [(token, ann)]) s e) as Hspans'
      by (intros s e Hin; by apply covers_app, Hspans).
    destruct ann as [[|id rest]|].
    + done.
    + rewrite track_tagged. apply IH; [done|].
      unfold Spans.constraint_id. case_decide as Hid.
      * apply tracks_emit; simpl; [done|done|done|].
        destruct id as [id|]; [|by intros id [rest' [=]]].
        exists pairs, [(token, Some (Some id :: rest))].
        repeat split; try done.
        -- repeat constructor. by exists rest.
        -- intros p Hlast Hp.
           destruct (Spans.open_constraint st) as [[[id'|] s']|].
           ++ destruct Hopen as (pre & run & -> & Hrun & Htag & _).
              rewrite last_app in Hlast.
              destruct (last run) as [q|] eqn:Hq;
                [|by apply last_None in Hq].
              injection Hlast as ->.
              apply last_Some_elem_of in Hq.
              rewrite Forall_forall in Htag.
              destruct (Htag _ Hq) as [rest'' Hp'].
              destruct Hp as [rest' Hp]. congruence.
           ++ by apply (Hopen p id).
           ++ by apply (Hopen p id).
        -- rewrite Hout. by rewrite start_is_starts_after.
      * apply tracks_emit; [done|done|done|].
        destruct (Spans.open_constraint st) as [[[id'|] s']|].
        -- subst id.
           destruct Hopen as (pre & run & -> & Hrun & Htag & Hpre & Hs).
           exists pre, (run ++ [(token, Some (Some id' :: rest))]).
           rewrite <- app_assoc. repeat split; try done.
           ++ by destruct run.
           ++ apply Forall_app. split; [done|]. repeat constructor.
              by exists rest.
        -- subst id. by intros id [rest' [=]].
        -- subst id. by intros id [rest' [=]].
    + rewrite track_untagged. apply IH; [done|].
      destruct (Spans.open_constraint st) as [[[id|] s]|] eqn:Hst.
      * apply tracks_emit; simpl; [done|done| |by intros id' [rest' [=]]].
        intros s' e' [Hin|Hin%list_elem_of_singleton]%elem_of_app.
        { by apply covers_app, Hspans. }
        injection Hin as -> ->.
        destruct Hopen as (pre & run & -> & Hrun & Htag & Hpre & Hs).
        exists pre, run, [(token, None)], id.
        rewrite <- app_assoc. repeat split; try done.
        -- by exists token.
        -- by rewrite Hout.
      * apply tracks_emit; [done|done|done|].
        rewrite Hst. by intros id' [rest' [=]].
      * apply tracks_emit; [done|done|done|].
        rewrite Hst. by intros id' [rest' [=]].
Qed.

(** X14: every span the converter returns delimits a run of tokens in the
    returned text. For tokens that are not empty, a returned span [s, e)
    goes from the start of the first token to the end of the last token of
    a non-empty run of tokens tagged with one identifier other than
    [None], where the token before the run is not tagged with that
    identifier and the token after it is untagged. *)
Theorem convert_spans_cover_runs (token_sequence : list string)
    (constraint_annotations : list (option (list (option T))))
    (spans : list (Z * Z)) (text : string) :
  Forall (λ t, t ≠ EmptyString) token_sequence →
  Spans.convert_token_annotations_to_spans token_sequence
    constraint_annotations = Ok (spans, text) →
  text = join " " token_sequence ∧
  ∀ s e, (s, e) ∈ spans →
    covers (zip token_sequence constraint_annotations) s e.
Proof.
  intros Hne. unfold Spans.convert_token_annotations_to_spans.
  case_decide as Hlen; [|done].
  destruct (Spans.loop _ _) as [st'|] eqn:Hloop; [|done].
  intros [= <- <-].
  apply (loop_tracks _ []) in Hloop as (Hout & Hspans & _).
  - simpl in *. by rewrite fst_zip in Hout by lia.
  - simpl. by rewrite fst_zip by lia.
  - repeat split; [by intros ? ? ?%elem_of_nil|].
    by intros p id [=].
Qed.

End ConvertRuns.

Lemma convert_spans_cover_runs_witness :
  "foo bar baz qux"%string = join " " ["foo"; "bar"; "baz"; "qux"]%string ∧
  ∀ s e, (s, e) ∈ [(4, 11)] →
    covers (zip ["foo"; "bar"; "baz"; "qux"]%string
                [Some [Some 2%nat]; Some [Some 1%nat]; Some [Some 1%nat];
                 None]) s e.
Proof.
  apply (convert_spans_cover_runs
           ["foo"; "bar"; "baz"; "qux"]%string
           [Some [Some 2%nat]; Some [Some 1%nat]; Some [Some 1%nat]; None]).
  - by repeat constructor.
  - reflexivity.
Defined.

(** * The merge loop runs until no rule applies *)

Lemma encode_loop_exhausts bpe_codes n : ∀ word word',
  (length word ≤ n)%nat →
  encode_loop bpe_codes word = Ok word' →
  ∀ pairs, get_pairs word' = Ok pairs →
  ∀ q, q ∈ pairs → priority bpe_codes q = None.
Proof.
  induction n as [|n IH]; intros word word' Hn; rewrite encode_loop_unfold;
    destruct word as [|x [|y rest]]; try done; simpl in Hn; try lia.
  cbn [get_pairs pairs_after min_pair]. simpl.
  set (bigram := foldl _ _ _).
  assert (min_pair bpe_codes (pairs_after x (y :: rest)) = Ok bigram)
    as Hmin by done.
  destruct (bpe_codes !! [bigram.1; bigram.2]) as [rank|] eqn:Hrank.
  - rewrite merge_pass_spec.
    set (new_word := merge_every_occurrence bigram.1 bigram.2 (x :: y :: rest)).
    assert (length new_word < length (x :: y :: rest))%nat as Hshort.
    { apply min_pair_elem in Hmin. destruct bigram as [b1 b2].
      by apply merge_every_occurrence_shorter. }
    destruct (decide (length new_word = 1%nat)) as [Hlen|Hlen].
    + intros [= <-] pairs Hpairs q Hq.
      destruct new_word as [|z [|? ?]]; try done.
      simpl in Hpairs. injection Hpairs as <-. by apply elem_of_nil in Hq.
    + apply IH. simpl in *. lia.
  - intros [= <-] pairs [= <-] q Hq.
    apply priority_lt_None.
    rewrite <- Hrank. by apply (min_pair_least _ _ _ Hmin).
Qed.

Lemma encode_loop_fixed bpe_codes word pairs :
  (2 ≤ length word)%nat → get_pairs word = Ok pairs →
  (∀ q, q ∈ pairs → priority bpe_codes q = None) →
  encode_loop bpe_codes word = Ok word.
Proof.
  intros H2 Hpairs Hnone. rewrite encode_loop_unfold.
  destruct word as [|x [|y rest]]; simpl in H2; try lia.
  injection Hpairs as <-.
  cbn [get_pairs pairs_after min_pair]. simpl.
  set (bigram := foldl _ _ _).
  assert (min_pair bpe_codes (pairs_after x (y :: rest)) = Ok bigram)
    as Hmin by done.
  apply min_pair_elem in Hmin. apply Hnone in Hmin.
  unfold priority in Hmin. by rewrite Hmin.
Qed.

(** X15: the merge loop of [encode] stops only when no rule applies any
    more. In the word it leaves, no two adjacent symbols form a pair of the
    merge table; a word of two or more symbols that it leaves is returned
    unchanged when the loop is run on it again. *)
Theorem encode_loop_runs_to_the_end (bpe_codes : table)
    (word word' : list string) :
  encode_loop bpe_codes word = Ok word' →
  (∀ pairs, get_pairs word' = Ok pairs →
     ∀ q, q ∈ pairs → bpe_codes !! [q.1; q.2] = None) ∧
  ((2 ≤ length word')%nat → encode_loop bpe_codes word' = Ok word').
Proof.
  intros Hloop.
  pose proof (encode_loop_exhausts _ _ _ _ (Nat.le_refl _) Hloop) as Hnone.
  split; [done|]. intros H2.
  destruct word' as [|x rest] eqn:Hword; [simpl in H2; lia|].
  apply (encode_loop_fixed _ _ (pairs_after x rest)); [done|done|].
  by apply Hnone.
Qed.

Lemma encode_loop_runs_to_the_end_witness :
  (∀ pairs, get_pairs ["ab"; "c"; "ab"; "</w>"]%string = Ok pairs →
     ∀ q, q ∈ pairs → table_a_b !! [q.1; q.2] = None) ∧
  ((2 ≤ length ["ab"; "c"; "ab"; "</w>"]%string)%nat →
   encode_loop table_a_b ["ab"; "c"; "ab"; "</w>"]%string
   = Ok ["ab"; "c"; "ab"; "</w>"]%string).
Proof.
  apply (encode_loop_runs_to_the_end table_a_b (word_of "abcab")).
  reflexivity.
Defined.

(** X16: a word in which no two adjacent characters, and not the last
    character with the end-of-word marker, form a pair of the merge table
    is segmented into its characters; with the empty table this is every
    word. *)
Theorem encode_word_without_rule (orig : string) (bpe_codes : table)
    (pairs : list (string * string)) :
  orig ≠ EmptyString →
  get_pairs (word_of orig) = Ok pairs →
  (∀ q, q ∈ pairs → bpe_codes !! [q.1; q.2] = None) →
  encode_word orig bpe_codes
  = Ok ((λ c, String c EmptyString) <$> chars orig).
Proof.
  intros Horig Hpairs Hnone. unfold encode_word.
  rewrite (encode_loop_fixed _ _ pairs); [|
    unfold word_of; rewrite length_app, length_fmap;
    destruct orig; [done|simpl; lia] | done | done].
  simpl. unfold strip_end_of_word, word_of.
  rewrite last_snoc. rewrite decide_True by done.
  by rewrite removelast_last.
Qed.

Lemma encode_word_without_rule_witness :
  encode_word "bar" table_a_b = Ok ["b"; "a"; "r"]%string.
Proof.
  apply (encode_word_without_rule "bar" table_a_b
           [("b", "a"); ("a", "r"); ("r", "</w>")]%string);
    [done | reflexivity |].
  intros q Hq.
  repeat (apply elem_of_cons in Hq as [->|Hq]; [reflexivity|]).
  by apply elem_of_nil in Hq.
Defined.

(** * The tokenizer adapter reads one response per call *)

Lemma read_segment_skip blanks line more :
  Forall (λ l, l = newline) blanks → line ≠ newline →
  read_segment (blanks ++ line :: more) = (line, more).
Proof.
  intros Hblanks Hline.
  induction Hblanks as [|l blanks -> _ IH]; cbn [app read_segment].
  - by rewrite decide_False.
  - by rewrite decide_True.
Qed.

(** X17: one call of [tokenize] with a text that is not blank writes the
    text and two newlines to the tokenizer, skips the bare newlines at the
    front of its output, takes the next line as the response and discards
    the line after it. When the response decodes, the call returns tokens
    that are not empty and contain no whitespace; without subword
    segmentation they are the whitespace-separated words of the decoded
    response. A blank text returns no token and leaves the tokenizer
    untouched. *)
Theorem tokenize_reads_one_response
    (encode_utf8 : string → string) (decode_utf8 : string → result string)
    (self : DataProcessor) (t : text)
    (blanks more : list string) (line utf_line : string) :
  (String.length (strip t) = 0%nat →
   tokenize encode_utf8 decode_utf8 self t = (Ok [], tokenizer self)) ∧
  (String.length (strip t) ≠ 0%nat →
   stdout (tokenizer self) = blanks ++ line :: more →
   Forall (λ l, l = newline) blanks → line ≠ newline →
   decode_utf8 (rstrip_with isspace_byte line) = Ok utf_line →
   ∃ tokens,
     tokenize encode_utf8 decode_utf8 self t =
       (Ok tokens,
        Process
          (stdin (tokenizer self) ++
             [match t with Unicode s => encode_utf8 s | Str s => s end
              +:+ newline +:+ newline])
          (drop 1 more)) ∧
     Forall wordlike tokens ∧
     (bpe self = None → tokens = split utf_line)).
Proof.
  unfold tokenize. split.
  - intros Hblank. by rewrite decide_True.
  - intros Htext Hout Hblanks Hline Hdecode.
    rewrite decide_False by done. cbv zeta. unfold write.
    cbn [stdout stdin]. rewrite Hout.
    rewrite (read_segment_skip _ _ _ Hblanks Hline). rewrite Hdecode.
    assert (∀ s, Forall wordlike (split s)) as Hsplit
      by (intros s; apply split_from_wordlike; by intros ? ?%elem_of_nil).
    assert ((readline
               (Process
                  (stdin (tokenizer self) ++
                     [match t with Unicode s => encode_utf8 s | Str s => s end
                      +:+ newline +:+ newline]) more)).2
            = Process
                (stdin (tokenizer self) ++
                   [match t with Unicode s => encode_utf8 s | Str s => s end
                    +:+ newline +:+ newline]) (drop 1 more)) as ->.
    { destruct more; [done|]. unfold readline. simpl. by rewrite drop_0. }
    destruct (bpe self) as [b|].
    + destruct (segment_total b utf_line) as [out Hseg].
      exists (split out). unfold mbind at 1, result_bind at 1.
      rewrite Hseg. by repeat split.
    + exists (split utf_line). by repeat split.
Qed.

Lemma tokenize_reads_one_response_witness :
  ∃ tokens,
    tokenize id decode_ascii
      (MkDataProcessor (Some (MkBPE table_a_b None "@@")) "en"
         (Process [] [newline; "ab , c" +:+ newline; newline; "next"]))
      (Str "ab, c")
    = (Ok tokens,
       Process ["ab, c" +:+ newline +:+ newline] ["next"%string]) ∧
    Forall wordlike tokens ∧
    (bpe (MkDataProcessor (Some (MkBPE table_a_b None "@@")) "en"
            (Process [] [newline; "ab , c" +:+ newline; newline; "next"]))
       = None → tokens = split "ab , c").
Proof.
  apply (tokenize_reads_one_response id decode_ascii
           (MkDataProcessor (Some (MkBPE table_a_b None "@@")) "en"
              (Process [] [newline; "ab , c" +:+ newline; newline; "next"]))
           (Str "ab, c") [newline] [newline; "next"%string]
           ("ab , c" +:+ newline) "ab , c");
    [by vm_compute | reflexivity | by repeat constructor | done
    | reflexivity].
Defined.

(** * Aligned sequences never overrun *)

Lemma remap_aligned {A} `{EqDecision A}
    (tokenized detokenized : list A) (spans : list (Z * Z)) :
  detokenized `sublist_of` tokenized →
  (∃ out, remap_constraint_indices tokenized detokenized spans = Ok out) ∨
  remap_constraint_indices tokenized detokenized spans = Raise AssertionError.
Proof.
  intros Hsub. unfold remap_constraint_indices, remap_with.
  pose proof (RemapFacts.for_loop_follows (constraint_idx_starts spans)
    (constraint_idx_ends spans) tokenized detokenized initial initial
    eq_refl eq_refl) as Hf.
  destruct (sublist_walk_for_loop tokenized detokenized 0 0 None [])
    as (st0 & Hwalk & _); [done|].
  fold initial in Hwalk. rewrite Hwalk in Hf.
  destruct (for_loop (constraint_idx_starts spans) _ _ _ _) as [st|[]];
    simpl in *; try done; eauto.
Qed.

(** X18: the remapper raises [IndexError] only for sequences that are not
    aligned. When the detokenized sequence is the tokenized one with some
    elements left out, a call returns spans or fails its assertion,
    whatever the spans are. *)
Theorem remap_aligned_never_overruns {A} `{EqDecision A}
    (tokenized detokenized : list A) (spans : list (Z * Z)) :
  detokenized `sublist_of` tokenized →
  (∃ out, remap_constraint_indices tokenized detokenized spans = Ok out) ∨
  remap_constraint_indices tokenized detokenized spans = Raise AssertionError.
Proof. apply remap_aligned. Qed.

Lemma remap_aligned_never_overruns_witness :
  (∃ out, remap_constraint_indices (chars "fo@@ o bar") (chars "foo bar")
            [(7, 9); (5, 7)] = Ok out) ∨
  remap_constraint_indices (chars "fo@@ o bar") (chars "foo bar")
    [(7, 9); (5, 7)] = Raise AssertionError.
Proof.
  apply (remap_aligned_never_overruns (chars "fo@@ o bar") (chars "foo bar")).
  unfold chars. simpl.
  do 2 apply sublist_skip. do 3 apply sublist_cons. apply sublist_skip.
  by repeat apply sublist_skip.
Defined.

(** * The segmenter's output is aligned with its input *)








